(** * graphiti: the OpenAI-compatible completion client and episode retrieval

    A shallow embedding of
    - [graphiti_core/llm_client/openai_compatible_client.py]
      ([_generate_response], [generate_response]),
    - [graphiti_core/utils/maintenance/graph_data_operations.py]
      ([retrieve_episodes], the statements of
      [build_indices_and_constraints]), and
    - [server/graph_service/config.py] ([get_settings]),
    followed by the properties of the retry loop, the request builder, the
    response normaliser, the episode query and the cached settings.

    Python objects that are mutated in place ([Message] objects, the
    [messages] list) live in an explicit store; exceptions are values of an
    error type; the remote completion service is a sequence of outcomes. *)

From Stdlib Require Import Floats.PrimFloat.
From stdpp Require Import base numbers list strings sorting.

Local Open Scope string_scope.

(** ** Python strings *)

Module PyStr.

(** Text is held in UTF-8: a character below 128 is an ASCII character, and
    text is ASCII when all its characters are. *)
Definition is_ascii_char (c : Ascii.ascii) : bool :=
  (Ascii.nat_of_ascii c <? 128)%nat.

Fixpoint is_ascii (s : string) : bool :=
  match s with
  | EmptyString => true
  | String c s' => is_ascii_char c && is_ascii s'
  end.

(** [str.lower] on ASCII text: [A-Z] go to [a-z], every other character is
    kept.  It is used on ASCII text only, see [str_lower]. *)
Definition lower_ascii (c : Ascii.ascii) : Ascii.ascii :=
  let n := Ascii.nat_of_ascii c in
  if (65 <=? n)%nat && (n <=? 90)%nat then Ascii.ascii_of_nat (n + 32) else c.

Fixpoint lower (s : string) : string :=
  match s with
  | EmptyString => EmptyString
  | String c s' => String (lower_ascii c) (lower s')
  end.

(** [s.lower()].  On ASCII text it is [lower].  On other text Python follows
    the case mappings of the Unicode database (the Kelvin sign U+212A, for
    one, goes to the letter [k]); these are not written out here:
    [lower_non_ascii] stands for [str.lower] on text that is not ASCII, and
    nothing is assumed about it. *)
Definition str_lower (lower_non_ascii : string → string) (s : string) : string :=
  if is_ascii s then lower s else lower_non_ascii s.

(** [sub in s]: [sub] occurs in [s] as a contiguous substring. *)
Fixpoint contains (sub s : string) : bool :=
  String.prefix sub s ||
  match s with
  | EmptyString => false
  | String _ s' => contains sub s'
  end.

(** Truthiness of a [str]: only the empty string is falsy. *)
Definition truthy (s : string) : bool :=
  match s with EmptyString => false | _ => true end.

End PyStr.

(** ** Exceptions *)

Module Exn.

(** The exception classes the client tells apart.  [RateLimitError] and
    [RefusalError] are the classes of [graphiti_core.llm_client.errors];
    the next four are classes of the [openai] package; [TypeError] and
    [IndexError] are raised by the interpreter inside [_generate_response];
    [OtherException] is any other subclass of [Exception], and
    [NonException] a [BaseException] outside [Exception]
    (a cancellation, a keyboard interrupt). *)
Inductive ExcClass :=
| RateLimitError
| RefusalError
| APITimeoutError
| APIConnectionError
| InternalServerError
| BadRequestError
| TypeError
| IndexError
| OtherException (name : string)
| NonException (name : string).

(** An exception object: its class and [str(e)]. *)
Record Exc := MkExc { exc_class : ExcClass; exc_str : string }.

(** [e.__class__.__name__] *)
Definition class_name (c : ExcClass) : string :=
  match c with
  | RateLimitError => "RateLimitError"
  | RefusalError => "RefusalError"
  | APITimeoutError => "APITimeoutError"
  | APIConnectionError => "APIConnectionError"
  | InternalServerError => "InternalServerError"
  | BadRequestError => "BadRequestError"
  | TypeError => "TypeError"
  | IndexError => "IndexError"
  | OtherException n => n
  | NonException n => n
  end.

(** Which [except] clause of [generate_response] an exception reaches. *)
Inductive Handler :=
| NoRetry            (* except (RateLimitError, RefusalError) *)
| TransportLevel     (* except (APITimeoutError, APIConnectionError, InternalServerError) *)
| ApplicationLevel   (* except Exception *)
| Uncaught.          (* no clause matches *)

Definition handler_of (e : Exc) : Handler :=
  match exc_class e with
  | RateLimitError | RefusalError => NoRetry
  | APITimeoutError | APIConnectionError | InternalServerError => TransportLevel
  | NonException _ => Uncaught
  | BadRequestError | TypeError | IndexError | OtherException _ => ApplicationLevel
  end.

(** The result of a call: a value or a raised exception. *)
Inductive Outcome (A : Type) :=
| Ret (a : A)
| Raise (e : Exc).
Arguments Ret {A} a.
Arguments Raise {A} e.

End Exn.
Import Exn.

(** ** The completion client *)

Module OpenAICompatibleClient.

Definition DEFAULT_MODEL : string := "deepseek".
Definition MAX_RETRIES : nat := 2.

(** [graphiti_core.prompts.models.Message] *)
Record Message := MkMessage { role : string; content : string }.

(** An entry of [openai_messages]: the dict [{'role': .., 'content': ..}]. *)
Record ChatCompletionMessageParam :=
  MkParam { param_role : string; param_content : string }.

(** [completion_params] *)
Record CompletionParams := MkParams {
  p_model : string;
  p_messages : list ChatCompletionMessageParam;
  p_temperature : float;
  p_max_tokens : Z
}.

(** [response.choices[i].message]: role, optional content, and whatever
    else the provider sent. *)
Record ChatCompletionMessage := MkCompletionMessage {
  cm_role : string;
  cm_content : option string;
  cm_extra : list (string * string)
}.

(** The transport's reply: [response.choices], message by message. *)
Record ChatCompletion := MkCompletion { choices : list ChatCompletionMessage }.

(** One invocation of [client.chat.completions.create]. *)
Inductive TransportOutcome :=
| Completed (r : ChatCompletion)
| Failed (e : Exc).

(** The attributes of [self] that the two methods read. *)
Record Client := MkClient {
  model : option string;
  temperature : float;
  max_tokens : Z
}.

(** References to [Message] objects: positions in the store. *)
Abbreviation loc := nat.

(** The mutable state a call works on: the [Message] objects, the caller's
    [messages] list (a list of references), and the requests that have been
    handed to the transport so far. *)
Record State := MkState {
  heap : list Message;
  messages : list loc;
  sent : list CompletionParams
}.

(** [self.model or DEFAULT_MODEL] *)
Definition model_or_default (self : Client) : string :=
  match model self with
  | Some m => if PyStr.truthy m then m else DEFAULT_MODEL
  | None => DEFAULT_MODEL
  end.

Section WithEnvironment.

(** [str.lower] on text that is not ASCII, see [PyStr.str_lower]. *)
Variable lower_non_ascii : string → string.

(** ['deepseek' in (self.model or DEFAULT_MODEL).lower()] *)
Definition is_deepseek (self : Client) : bool :=
  PyStr.contains "deepseek" (PyStr.str_lower lower_non_ascii (model_or_default self)).

(** [LLMClient._clean_input], defined in the base class. *)
Variable clean_input : string → string.

(** [json.loads] on a [str]: the decoded value, or [None] for
    [JSONDecodeError]. *)
Variable JSON : Type.
Variable json_loads : string → option JSON.

(** The outcome of the [k]-th invocation of
    [self.client.chat.completions.create], counted over the requests sent so
    far.  The service is outside the program: its outcomes are given. *)
Variable transport : nat → TransportOutcome.

(** The value [_generate_response] returns, by return statement. *)
Inductive Response :=
| Parsed (v : JSON)                       (* return parsed_content *)
| ContentOnly (raw : string)              (* return {'content': response_content} *)
| ModelDump (m : ChatCompletionMessage).  (* return ...message.model_dump() *)

(** [m.content = self._clean_input(m.content)] *)
Definition clean_message (m : Message) : Message :=
  MkMessage (role m) (clean_input (content m)).

(** The [for m in messages] loop: cleans each object in place and
    collects the user and system messages.  A reference of a Python list
    always points to an object, so the [None] branch is there for totality
    only. *)
Fixpoint build_messages (ms : list loc) (h : list Message)
    (openai_messages : list ChatCompletionMessageParam)
    : list Message * list ChatCompletionMessageParam :=
  match ms with
  | [] => (h, openai_messages)
  | l :: ms' =>
      let h' := alter clean_message l h in
      match h' !! l with
      | Some m =>
          if String.eqb (role m) "user" then
            build_messages ms' h' (openai_messages ++ [MkParam "user" (content m)])
          else if String.eqb (role m) "system" then
            build_messages ms' h' (openai_messages ++ [MkParam "system" (content m)])
          else build_messages ms' h' openai_messages
      | None => build_messages ms' h' openai_messages
      end
  end.

(** What follows [create] inside the [try] block. *)
Definition normalize (self : Client) (response_model : option string)
    (t : TransportOutcome) : Outcome Response :=
  match t with
  | Failed e => Raise e
  | Completed response =>
      match choices response with
      | [] => Raise (MkExc IndexError "list index out of range")
      | choice0 :: _ =>
          let response_content := cm_content choice0 in
          if is_deepseek self && bool_decide (is_Some response_model) then
            match response_content with
            | None =>
                Raise (MkExc TypeError
                  "the JSON object must be str, bytes or bytearray, not NoneType")
            | Some text =>
                match json_loads text with
                | Some parsed_content => Ret (Parsed parsed_content)
                | None => Ret (ContentOnly text)
                end
            end
          else Ret (ModelDump choice0)
      end
  end.

Definition _generate_response (self : Client) (response_model : option string)
    (s : State) : Outcome Response * State :=
  let '(h, openai_messages) := build_messages (messages s) (heap s) [] in
  let completion_params :=
    MkParams (model_or_default self) openai_messages
             (temperature self) (max_tokens self) in
  (normalize self response_model (transport (length (sent s))),
   MkState h (messages s) (sent s ++ [completion_params])).

(** The f-string [error_context]. *)
Definition error_context (e : Exc) : string :=
  "The previous response attempt was invalid. " +:+
  "Error type: " +:+ class_name (exc_class e) +:+ ". " +:+
  "Error details: " +:+ exc_str e +:+ ". " +:+
  "Please try again with a valid response, ensuring the output matches " +:+
  "the expected format and constraints.".

(** [messages.append(Message(role='user', content=error_context))] *)
Definition append_message (m : Message) (s : State) : State :=
  MkState (heap s ++ [m]) (messages s ++ [length (heap s)]) (sent s).

(** How the [while] loop is left. *)
Inductive LoopExit :=
| Returned (r : Response)                (* return response *)
| Raised (e : Exc)                       (* one of the three raise statements *)
| Fallthrough (last_error : option Exc)  (* the loop condition was false *)
| OutOfFuel.

(** The loop variables [retry_count] and [last_error]. *)
Definition LoopVars : Type := nat * option Exc.

(** One pass: the test [retry_count <= self.MAX_RETRIES] and the body.
    [inl] leaves the loop, [inr] goes round again. *)
Definition loop_body (self : Client) (response_model : option string)
    (retry_count : nat) (last_error : option Exc) (s : State)
    : (LoopExit + LoopVars) * State :=
  if (retry_count <=? MAX_RETRIES)%nat then
    match _generate_response self response_model s with
    | (Ret response, s1) => (inl (Returned response), s1)
    | (Raise e, s1) =>
        match handler_of e with
        | NoRetry => (inl (Raised e), s1)
        | TransportLevel => (inl (Raised e), s1)
        | Uncaught => (inl (Raised e), s1)
        | ApplicationLevel =>
            if (MAX_RETRIES <=? retry_count)%nat then (inl (Raised e), s1)
            else
              let error_message := MkMessage "user" (error_context e) in
              (inr (retry_count + 1, Some e), append_message error_message s1)
        end
    end
  else (inl (Fallthrough last_error), s).

(** [while retry_count <= self.MAX_RETRIES: ...] *)
Fixpoint generate_loop (fuel : nat) (self : Client) (response_model : option string)
    (retry_count : nat) (last_error : option Exc) (s : State)
    : LoopExit * State :=
  match fuel with
  | 0 => (OutOfFuel, s)
  | S fuel' =>
      match loop_body self response_model retry_count last_error s with
      | (inl exit, s') => (exit, s')
      | (inr (retry_count', last_error'), s') =>
          generate_loop fuel' self response_model retry_count' last_error' s'
      end
  end.

(** The loop variables and the state after [n] passes that all went round
    again; [None] if the loop was left earlier. *)
Fixpoint after_passes (n : nat) (self : Client) (response_model : option string)
    (retry_count : nat) (last_error : option Exc) (s : State)
    : option (LoopVars * State) :=
  match n with
  | 0 => Some ((retry_count, last_error), s)
  | S n' =>
      match loop_body self response_model retry_count last_error s with
      | (inl _, _) => None
      | (inr (retry_count', last_error'), s') =>
          after_passes n' self response_model retry_count' last_error' s'
      end
  end.

(** The ways a pass can go, as a relation between the loop variables and
    state before it and its result. *)
Inductive pass (self : Client) (rm : option string) (rc : nat) (le : option Exc)
    (s : State) : (LoopExit + LoopVars) * State → Prop :=
| pass_fallthrough :
    (MAX_RETRIES < rc)%nat →
    pass self rm rc le s (inl (Fallthrough le), s)
| pass_return r :
    (rc ≤ MAX_RETRIES)%nat →
    (_generate_response self rm s).1 = Ret r →
    pass self rm rc le s (inl (Returned r), (_generate_response self rm s).2)
| pass_raise e :
    (rc ≤ MAX_RETRIES)%nat →
    (_generate_response self rm s).1 = Raise e →
    handler_of e ≠ ApplicationLevel ∨ rc = MAX_RETRIES →
    pass self rm rc le s (inl (Raised e), (_generate_response self rm s).2)
| pass_retry e :
    (rc < MAX_RETRIES)%nat →
    (_generate_response self rm s).1 = Raise e →
    handler_of e = ApplicationLevel →
    pass self rm rc le s
         (inr ((rc + 1)%nat, Some e),
          append_message (MkMessage "user" (error_context e))
                         (_generate_response self rm s).2).

(** [raise last_error or Exception('Max retries exceeded with no specific error')] *)
Definition fallback_error (last_error : option Exc) : Exc :=
  match last_error with
  | Some e => e
  | None => MkExc (OtherException "Exception") "Max retries exceeded with no specific error"
  end.

(** [generate_response], the loop running for at most [fuel] passes;
    [None] when the fuel runs out. *)
Definition generate_response_fuel (fuel : nat) (self : Client)
    (response_model : option string) (s : State)
    : option (Outcome Response * State) :=
  match generate_loop fuel self response_model 0 None s with
  | (Returned r, s') => Some (Ret r, s')
  | (Raised e, s') => Some (Raise e, s')
  | (Fallthrough last_error, s') => Some (Raise (fallback_error last_error), s')
  | (OutOfFuel, _) => None
  end.

Definition generate_response := generate_response_fuel (S (S MAX_RETRIES)).

(** The [k]-th attempt after [s] fails with an application-level error
    (one that reaches [except Exception]). *)
Definition application_error_at (self : Client) (response_model : option string)
    (s : State) (k : nat) : Prop :=
  ∃ e, normalize self response_model (transport (length (sent s) + k)) = Raise e
       ∧ handler_of e = ApplicationLevel.

(** The objects of the conversation, in order. *)
Definition conversation (s : State) : list Message :=
  omap (λ l, heap s !! l) (messages s).

(** [m.role == 'user'] or [m.role == 'system'] *)
Definition user_or_system (r : string) : bool :=
  String.eqb r "user" || String.eqb r "system".

End WithEnvironment.

Arguments Parsed {JSON} v.
Arguments ContentOnly {JSON} raw.
Arguments ModelDump {JSON} m.
Arguments Returned {JSON} r.
Arguments Raised {JSON} e.
Arguments Fallthrough {JSON} last_error.
Arguments OutOfFuel {JSON}.

(** Every reference of the conversation points to an object of the store,
    as every element of a Python list does. *)
Definition wf (s : State) : Prop :=
  Forall (λ l, (l < length (heap s))%nat) (messages s).

(** How the outcome of an attempt leaves the loop, when it does. *)
Definition exit_of {JSON : Type} (o : Outcome (Response JSON)) : LoopExit JSON :=
  match o with
  | Ret r => Returned r
  | Raise e => Raised e
  end.

(** The outcome [o] of the attempt made with [retry_count = rc] ends the
    loop: it is a value, or an exception that is not retried, or no retry is
    left. *)
Definition decisive {JSON : Type} (rc : nat) (o : Outcome (Response JSON)) : Prop :=
  rc = MAX_RETRIES ∨ ∀ e, o = Raise e → handler_of e ≠ ApplicationLevel.

End OpenAICompatibleClient.

(** ** Episode retrieval *)

Module GraphDataOperations.

Definition EPISODE_WINDOW_LEN : nat := 3.

(** [graphiti_core.nodes.EpisodicNode], with the fields the query returns.
    Points in time are counted in microseconds since the epoch. *)
Record EpisodicNode := MkEpisodicNode {
  content : string;
  created_at : Z;
  valid_at : Z;
  uuid : string;
  name : string;
  source_description : string;
  source : string
}.

(** [ORDER BY e.created_at DESC]: [a] may stand before [b]. *)
Definition created_at_desc (a b : EpisodicNode) : Prop :=
  (created_at b ≤ created_at a)%Z.

#[global] Instance created_at_desc_dec a b : Decision (created_at_desc a b).
Proof. unfold created_at_desc. apply _. Defined.

(** The Cypher query over the stored [Episodic] nodes:
    [MATCH (e:Episodic) WHERE e.valid_at <= $reference_time ...
     ORDER BY e.created_at DESC LIMIT $num_episodes].
    The count of a [LIMIT] is a natural number.  Rows created at the same
    instant come in the order the sort leaves them; the database promises
    none, see [query_answer]. *)
Definition execute_query (graph : list EpisodicNode) (reference_time : Z)
    (num_episodes : nat) : list EpisodicNode :=
  take num_episodes
    (merge_sort created_at_desc
       (filter (λ e, (valid_at e ≤ reference_time)%Z) graph)).

(** What the query promises for its rows, whatever the order among rows
    created at the same instant: the first [num_episodes] of some listing of
    the valid episodes by descending creation time. *)
Definition query_answer (graph : list EpisodicNode) (reference_time : Z)
    (num_episodes : nat) (rows : list EpisodicNode) : Prop :=
  ∃ sorted,
    sorted ≡ₚ filter (λ e, (valid_at e ≤ reference_time)%Z) graph
    ∧ StronglySorted created_at_desc sorted
    ∧ rows = take num_episodes sorted.

Section WithTimestamps.

(** [datetime.fromtimestamp(x.to_native().timestamp(), timezone.utc)]: the
    stored [created_at] is turned into a float of seconds and the float back
    into a point in time.  A float does not hold every instant, so the result
    need not be the stored one; it is a function of the stored value, and
    nothing is assumed about it. *)
Variable utc_round_trip : Z → Z.

(** The comprehension that rebuilds an [EpisodicNode] from each record. *)
Definition node_of_record (record : EpisodicNode) : EpisodicNode :=
  MkEpisodicNode (content record) (utc_round_trip (created_at record))
                 (valid_at record) (uuid record) (name record)
                 (source_description record) (source record).

Definition retrieve_episodes (graph : list EpisodicNode) (reference_time : Z)
    (last_n : nat) : list EpisodicNode :=
  let result := execute_query graph reference_time last_n in
  let episodes := node_of_record <$> result in
  reverse episodes.

End WithTimestamps.

(** *** Index statements *)

(** The statements of [build_indices_and_constraints], as they are written. *)
Definition range_indices : list string :=
  [ "CREATE INDEX entity_uuid IF NOT EXISTS FOR (n:Entity) ON (n.uuid)";
    "CREATE INDEX episode_uuid IF NOT EXISTS FOR (n:Episodic) ON (n.uuid)";
    "CREATE INDEX relation_uuid IF NOT EXISTS FOR ()-[e:RELATES_TO]-() ON (e.uuid)";
    "CREATE INDEX mention_uuid IF NOT EXISTS FOR ()-[e:MENTIONS]-() ON (e.uuid)";
    "CREATE INDEX name_entity_index IF NOT EXISTS FOR (n:Entity) ON (n.name)";
    "CREATE INDEX created_at_entity_index IF NOT EXISTS FOR (n:Entity) ON (n.created_at)";
    "CREATE INDEX created_at_episodic_index IF NOT EXISTS FOR (n:Episodic) ON (n.created_at)";
    "CREATE INDEX valid_at_episodic_index IF NOT EXISTS FOR (n:Episodic) ON (n.valid_at)";
    "CREATE INDEX name_edge_index IF NOT EXISTS FOR ()-[e:RELATES_TO]-() ON (e.name)";
    "CREATE INDEX created_at_edge_index IF NOT EXISTS FOR ()-[e:RELATES_TO]-() ON (e.created_at)";
    "CREATE INDEX expired_at_edge_index IF NOT EXISTS FOR ()-[e:RELATES_TO]-() ON (e.expired_at)";
    "CREATE INDEX valid_at_edge_index IF NOT EXISTS FOR ()-[e:RELATES_TO]-() ON (e.valid_at)";
    "CREATE INDEX invalid_at_edge_index IF NOT EXISTS FOR ()-[e:RELATES_TO]-() ON (e.invalid_at)" ].

Definition fulltext_indices : list string :=
  [ "CREATE FULLTEXT INDEX name_and_summary IF NOT EXISTS FOR (n:Entity) ON EACH [n.name, n.summary]";
    "CREATE FULLTEXT INDEX name_and_fact IF NOT EXISTS FOR ()-[e:RELATES_TO]-() ON EACH [e.name, e.fact]" ].

Definition vector_indices : list string :=
  [ "
        CREATE VECTOR INDEX fact_embedding IF NOT EXISTS
        FOR ()-[r:RELATES_TO]-() ON (r.fact_embedding)
        OPTIONS {indexConfig: {
         `vector.dimensions`: 1024,
         `vector.similarity_function`: 'cosine'
        }}
        ";
    "
        CREATE VECTOR INDEX name_embedding IF NOT EXISTS
        FOR (n:Entity) ON (n.name_embedding)
        OPTIONS {indexConfig: {
         `vector.dimensions`: 1024,
         `vector.similarity_function`: 'cosine'
        }}
        " ].

Definition index_queries : list string :=
  range_indices ++ fulltext_indices ++ vector_indices.

End GraphDataOperations.

(** ** The settings of the server *)

Module GraphServiceConfig.

(** [Settings], the fields as declared in [server/graph_service/config.py]. *)
Record Settings := MkSettings {
  openai_api_key : string;
  openai_base_url : option string;
  model_name : option string;
  embedding_model_name : option string;
  openai_compatibility_api_key : string;
  openai_compatibility_base_url : option string;
  openai_compatibility_model_name : option string;
  openai_compatibility_max_tokens : Z;
  openai_compatibility_temperature : float;
  neo4j_uri : string;
  neo4j_user : string;
  neo4j_password : string
}.

Section WithLoader.

(** The process environment and the [.env] file at the time of a call. *)
Variable Env : Type.

(** [Settings()]: the settings library reads and validates the fields; it
    raises when validation fails. *)
Variable load : Env → Outcome Settings.

(** [@lru_cache def get_settings(): return Settings()].  The cache of a
    function without arguments holds at most one value; a call that raises
    stores nothing. *)
Definition get_settings (cache : option Settings) (env : Env)
    : Outcome Settings * option Settings :=
  match cache with
  | Some settings => (Ret settings, cache)
  | None =>
      match load env with
      | Ret settings => (Ret settings, Some settings)
      | Raise e => (Raise e, None)
      end
  end.

(** Successive calls, the environment being [env] at each: their results
    and the cache at the end. *)
Fixpoint get_settings_calls (cache : option Settings) (envs : list Env)
    : list (Outcome Settings) * option Settings :=
  match envs with
  | [] => ([], cache)
  | env :: envs' =>
      let '(result, cache') := get_settings cache env in
      let '(results, cache'') := get_settings_calls cache' envs' in
      (result :: results, cache'')
  end.

End WithLoader.

End GraphServiceConfig.

(** ** Concrete environments, used to run the definitions *)

Module Scenario.
Import OpenAICompatibleClient.

(** Modelled from the spec: [LLMClient._clean_input] is defined in
    [llm_client/client.py], which is not among the sources.  The spec (4.1)
    describes it as a pure transform that returns a cleaned string
    (whitespace/control-character normalization): control characters other
    than tab, line feed and carriage return are removed. *)
Definition is_control (c : Ascii.ascii) : bool :=
  let n := Ascii.nat_of_ascii c in
  (n <? 32)%nat && negb ((n =? 9)%nat || (n =? 10)%nat || (n =? 13)%nat).

Fixpoint clean_input (s : string) : string :=
  match s with
  | EmptyString => EmptyString
  | String c s' => if is_control c then clean_input s' else String c (clean_input s')
  end.

(** A decoder that knows one document, the empty JSON object, and rejects
    every other text: enough to take both branches after [json.loads]. *)
Definition JSON : Type := list (string * string).
Definition json_loads (text : string) : option JSON :=
  if String.eqb text "{}" then Some [] else None.

(** [str.lower] on text that is not ASCII.  The model names of the
    scenarios are ASCII, so it is not consulted; it lower-cases the ASCII
    letters and keeps the rest. *)
Definition lower_non_ascii (s : string) : string := PyStr.lower s.

(** [DEEPSEE] followed by the Kelvin sign U+212A, in UTF-8. *)
Definition kelvin_name : string :=
  "DEEPSEE" +:+ String (Ascii.ascii_of_nat 226)
                  (String (Ascii.ascii_of_nat 132)
                     (String (Ascii.ascii_of_nat 170) EmptyString)).

Definition bell : string := String (Ascii.ascii_of_nat 7) EmptyString.

(** A conversation of three objects; the user message carries a BEL. *)
Definition s0 : State :=
  MkState [ MkMessage "system" "Extract the facts.";
            MkMessage "user" ("Alice met Bob" +:+ bell);
            MkMessage "assistant" "Noted." ]
          [0; 1; 2] [].

Definition client_unset : Client := MkClient None 0.5%float 8192.
Definition client_empty : Client := MkClient (Some "") 0.5%float 8192.
Definition client_gpt : Client := MkClient (Some "gpt-4o") 0.5%float 8192.
Definition client_deepseek : Client := MkClient (Some "DeepSeek-V3") 0.5%float 8192.

Definition reply (text : string) : ChatCompletion :=
  MkCompletion [MkCompletionMessage "assistant" (Some text) [("refusal", "null")]].

Definition validation_error (k : nat) : Exc :=
  MkExc (OtherException "ValidationError")
        (if (k =? 0)%nat then "first" else if (k =? 1)%nat then "second" else "third").

(** Transports: one that always answers, one that is always rate limited,
    one whose every reply is rejected as invalid, and one that fails twice
    and then answers. *)
Definition transport_ok (text : string) : nat → TransportOutcome :=
  λ _, Completed (reply text).
Definition transport_rate_limited : nat → TransportOutcome :=
  λ _, Failed (MkExc RateLimitError "Rate limit exceeded. Please try again later.").
Definition transport_invalid : nat → TransportOutcome :=
  λ k, Failed (validation_error k).
Definition transport_flaky : nat → TransportOutcome :=
  λ k, if (k <? 2)%nat then Failed (validation_error k) else Completed (reply "{}").

(** A transport that answers every request with HTTP 429: the client
    library raises its own [openai.RateLimitError]. *)
Definition openai_rate_limit_error : Exc :=
  MkExc (OtherException "RateLimitError") "Error code: 429 - Rate limit reached".
Definition transport_openai_rate_limited : nat → TransportOutcome :=
  λ _, Failed openai_rate_limit_error.

(** An invalid reply first, then a timeout. *)
Definition transport_timeout_second : nat → TransportOutcome :=
  λ k, if (k =? 0)%nat then Failed (validation_error k)
       else Failed (MkExc APITimeoutError "Request timed out.").

(** Replies the normaliser cannot use: no choice at all, and a choice
    without content. *)
Definition transport_no_choices : nat → TransportOutcome :=
  λ _, Completed (MkCompletion []).
Definition transport_no_content : nat → TransportOutcome :=
  λ _, Completed (MkCompletion [MkCompletionMessage "assistant" None []]).

(** An invalid reply first, then the task is cancelled. *)
Definition transport_cancelled_second : nat → TransportOutcome :=
  λ k, if (k =? 0)%nat then Failed (validation_error k)
       else Failed (MkExc (NonException "CancelledError") "").

(** An environment that holds an API key or none, the settings a key
    gives, and a loader that fails without a key. *)
Definition settings_of_key (key : string) : GraphServiceConfig.Settings :=
  GraphServiceConfig.MkSettings key None None None key None None 8192 0.5%float
    "bolt://localhost:7687" "neo4j" "password".
Definition load_settings (env : option string) : Outcome GraphServiceConfig.Settings :=
  match env with
  | Some key => Ret (settings_of_key key)
  | None => Raise (MkExc (OtherException "ValidationError") "Field required")
  end.

(** The instants of the scenarios are a few microseconds after the epoch;
    a float holds them exactly and the round trip gives them back. *)
Definition utc_round_trip (instant : Z) : Z := instant.

(** Two stored episodes: [ep_a] was created first but is valid later. *)
Definition ep_a : GraphDataOperations.EpisodicNode :=
  GraphDataOperations.MkEpisodicNode "a" 1 10 "uuid-a" "A" "chat" "message".
Definition ep_b : GraphDataOperations.EpisodicNode :=
  GraphDataOperations.MkEpisodicNode "b" 2 5 "uuid-b" "B" "chat" "message".
Definition graph : list GraphDataOperations.EpisodicNode := [ep_a; ep_b].

End Scenario.

(** * Properties of the string operations *)

Module PyStrProperties.

Lemma append_cons a s t : String a s +:+ t = String a (s +:+ t).
Proof. reflexivity. Qed.

Lemma append_nil s : "" +:+ s = s.
Proof. reflexivity. Qed.

Lemma prefix_app sub : ∀ s,
  String.prefix sub s = true ↔ ∃ post, s = sub +:+ post.
Proof.
  induction sub as [|a sub IH]; intros s; simpl.
  { split; [by exists s|by destruct s]. }
  destruct s as [|b s]; simpl.
  { split; [done|by intros [post ?]]. }
  destruct (Ascii.ascii_dec a b) as [->|Hne].
  - rewrite IH. split; intros [post Hpost]; exists post;
      rewrite append_cons in *; congruence.
  - split; [done|]. intros [post Hpost]. rewrite append_cons in Hpost. congruence.
Qed.

(** [contains sub s] holds exactly when [s] is some text, then [sub], then
    some text. *)
Lemma contains_spec sub s :
  PyStr.contains sub s = true ↔ ∃ pre post, s = pre +:+ sub +:+ post.
Proof.
  induction s as [|c s IH]; cbn [PyStr.contains]; rewrite orb_true_iff, prefix_app.
  - split.
    + intros [[post Hpost]|?]; [|done]. by exists "", post.
    + intros ([|? pre] & post & Hs); [|done]. left. by exists post.
  - rewrite IH. split.
    + intros [[post Hpost]|(pre & post & Hs)].
      * by exists "", post.
      * exists (String c pre), post. by rewrite append_cons, Hs.
    + intros ([|c' pre] & post & Hs).
      * left. by exists post.
      * right. exists pre, post. rewrite append_cons in Hs. congruence.
Qed.

Lemma lower_app a b : PyStr.lower (a +:+ b) = PyStr.lower a +:+ PyStr.lower b.
Proof. induction a as [|c a IH]; [done|]. simpl. by rewrite !append_cons, IH. Qed.

(** Lower-casing works character by character: a split of the result is the
    image of a split of the text. *)
Lemma lower_split a : ∀ s b,
  PyStr.lower s = a +:+ b →
  ∃ s1 s2, s = s1 +:+ s2 ∧ PyStr.lower s1 = a ∧ PyStr.lower s2 = b.
Proof.
  induction a as [|c a IH]; intros s b Hs.
  { by exists "", s. }
  destruct s as [|c0 s]; [done|]. rewrite append_cons in Hs. simpl in Hs.
  injection Hs as Hc Hs. destruct (IH s b Hs) as (s1 & s2 & -> & H1 & H2).
  exists (String c0 s1), s2. simpl. by rewrite H1, Hc.
Qed.

(** Lower-casing keeps what is lower case already, the marker included. *)
Example lower_examples :
  PyStr.lower "DeepSeek-V3" = "deepseek-v3"
  ∧ PyStr.lower "deepseek" = "deepseek"
  ∧ PyStr.lower "GPT-4o_mini.1" = "gpt-4o_mini.1".
Proof. repeat split; reflexivity. Qed.

End PyStrProperties.

(** * Properties of the completion client *)

Module ClientProperties.
Import OpenAICompatibleClient.
Local Open Scope nat_scope.
Local Open Scope list_scope.
#[local] Arguments MAX_RETRIES : simpl never.

Section WithEnvironment.

Variable lower_non_ascii : string → string.
Variable clean_input : string → string.
Variable JSON : Type.
Variable json_loads : string → option JSON.
Variable transport : nat → TransportOutcome.

Local Abbreviation is_deepseek := (is_deepseek lower_non_ascii).
Local Abbreviation clean_message := (clean_message clean_input).
Local Abbreviation build_messages := (build_messages clean_input).
Local Abbreviation normalize := (normalize lower_non_ascii JSON json_loads).
Local Abbreviation _generate_response :=
  (_generate_response lower_non_ascii clean_input JSON json_loads transport).
Local Abbreviation loop_body :=
  (loop_body lower_non_ascii clean_input JSON json_loads transport).
Local Abbreviation generate_loop :=
  (generate_loop lower_non_ascii clean_input JSON json_loads transport).
Local Abbreviation after_passes :=
  (after_passes lower_non_ascii clean_input JSON json_loads transport).
Local Abbreviation generate_response_fuel :=
  (generate_response_fuel lower_non_ascii clean_input JSON json_loads transport).
Local Abbreviation generate_response :=
  (generate_response lower_non_ascii clean_input JSON json_loads transport).
Local Abbreviation application_error_at :=
  (application_error_at lower_non_ascii JSON json_loads transport).
Local Abbreviation pass := (pass lower_non_ascii clean_input JSON json_loads transport).

Lemma MAX_RETRIES_eq : MAX_RETRIES = 2.
Proof. reflexivity. Qed.

(** Linear arithmetic that knows the retry bound. *)
Ltac bound := pose proof MAX_RETRIES_eq; lia.

(** *** The cleaning loop *)

Lemma role_clean_message m : role (clean_message m) = role m.
Proof. reflexivity. Qed.

Lemma build_messages_heap ms : ∀ h acc,
  (build_messages ms h acc).1 = foldl (λ h l, alter clean_message l h) h ms.
Proof.
  induction ms as [|l ms IH]; intros h acc; simpl; [done|].
  destruct (alter clean_message l h !! l) as [m|]; [|apply IH].
  destruct (String.eqb (role m) "user"); [apply IH|].
  destruct (String.eqb (role m) "system"); apply IH.
Qed.

Lemma foldl_alter_length (ms : list loc) : ∀ h : list Message,
  length (foldl (λ h l, alter clean_message l h) h ms) = length h.
Proof.
  induction ms as [|l ms IH]; intros h; simpl; [done|].
  by rewrite IH, length_alter.
Qed.

Lemma build_messages_length ms h acc :
  length (build_messages ms h acc).1 = length h.
Proof. rewrite build_messages_heap. apply foldl_alter_length. Qed.


(** *** One attempt *)

Lemma gen_unfold self rm s :
  _generate_response self rm s =
  (normalize self rm (transport (length (sent s))),
   MkState (build_messages (messages s) (heap s) []).1 (messages s)
           (sent s ++ [MkParams (model_or_default self)
                                (build_messages (messages s) (heap s) []).2
                                (temperature self) (max_tokens self)])).
Proof.
  unfold OpenAICompatibleClient._generate_response.
  by destruct (build_messages (messages s) (heap s) []).
Qed.

Lemma gen_outcome self rm s :
  (_generate_response self rm s).1 = normalize self rm (transport (length (sent s))).
Proof. by rewrite gen_unfold. Qed.

Lemma gen_messages self rm s :
  messages (_generate_response self rm s).2 = messages s.
Proof. by rewrite gen_unfold. Qed.

Lemma gen_heap self rm s :
  heap (_generate_response self rm s).2 =
  foldl (λ h l, alter clean_message l h) (heap s) (messages s).
Proof. rewrite gen_unfold. simpl. apply build_messages_heap. Qed.

Lemma gen_sent_length self rm s :
  length (sent (_generate_response self rm s).2) = length (sent s) + 1.
Proof. rewrite gen_unfold. simpl. by rewrite length_app. Qed.

(** *** One pass of the loop *)

Lemma loop_body_pass self rm rc le s :
  pass self rm rc le s (loop_body self rm rc le s).
Proof.
  unfold OpenAICompatibleClient.loop_body.
  destruct (Nat.leb_spec rc MAX_RETRIES) as [Hle|Hgt]; [|by constructor].
  destruct (_generate_response self rm s) as [[r|e] s1] eqn:Hg.
  - change s1 with (Ret r, s1).2. rewrite <- Hg. apply pass_return; [done|].
    by rewrite Hg.
  - assert (Hout : (_generate_response self rm s).1 = Raise e) by (by rewrite Hg).
    assert (Hst : s1 = (_generate_response self rm s).2) by (by rewrite Hg).
    rewrite Hst.
    destruct (handler_of e) eqn:Hh;
      try (apply pass_raise; [done|done|left; congruence]).
    destruct (Nat.leb_spec MAX_RETRIES rc) as [Hge|Hlt].
    + apply pass_raise; [done|done|right; bound].
    + by apply pass_retry.
Qed.

(** *** The loop *)

Lemma generate_loop_S fuel self rm rc le s :
  generate_loop (S fuel) self rm rc le s =
  match loop_body self rm rc le s with
  | (inl exit, s') => (exit, s')
  | (inr (rc', le'), s') => generate_loop fuel self rm rc' le' s'
  end.
Proof. reflexivity. Qed.

(** The requests handed to the transport only grow, by at most
    [MAX_RETRIES + 1 - retry_count] entries. *)
Lemma generate_loop_sent self rm fuel : ∀ rc le s,
  ∃ reqs, sent (generate_loop fuel self rm rc le s).2 = sent s ++ reqs
          ∧ length reqs ≤ MAX_RETRIES + 1 - rc.
Proof.
  induction fuel as [|fuel IH]; intros rc le s.
  { exists []. simpl. rewrite app_nil_r. split; [done|bound]. }
  rewrite generate_loop_S.
  destruct (loop_body_pass self rm rc le s) as [Hgt|r Hle Hr|e Hle He Hh|e Hlt He Hh].
  - exists []. simpl. rewrite app_nil_r. split; [done|bound].
  - rewrite gen_unfold. simpl. eexists [_]. split; [done|simpl; bound].
  - rewrite gen_unfold. simpl. eexists [_]. split; [done|simpl; bound].
  - destruct (IH (rc + 1) (Some e)
                (append_message (MkMessage "user" (error_context e))
                                (_generate_response self rm s).2))
      as (reqs & Hsent & Hlen).
    rewrite Hsent, gen_unfold. simpl. rewrite <- app_assoc.
    eexists. split; [done|]. simpl. bound.
Qed.

(** Entered with [retry_count <= MAX_RETRIES], the loop is never left
    through its condition. *)
Lemma generate_loop_no_fallthrough self rm fuel : ∀ rc le s,
  rc ≤ MAX_RETRIES →
  match (generate_loop fuel self rm rc le s).1 with
  | Fallthrough _ => False
  | _ => True
  end.
Proof.
  induction fuel as [|fuel IH]; intros rc le s Hrc; [done|].
  rewrite generate_loop_S.
  destruct (loop_body_pass self rm rc le s) as [Hgt|r Hle Hr|e Hle He Hh|e Hlt He Hh];
    [bound|done|done|].
  apply IH. bound.
Qed.

(** [MAX_RETRIES + 1 - retry_count] passes are enough, and at least one. *)
Lemma generate_loop_terminates self rm fuel : ∀ rc le s,
  0 < fuel → MAX_RETRIES + 1 - rc ≤ fuel →
  (generate_loop fuel self rm rc le s).1 ≠ OutOfFuel.
Proof.
  induction fuel as [|fuel IH]; intros rc le s Hpos Hfuel; [bound|].
  rewrite generate_loop_S.
  destruct (loop_body_pass self rm rc le s) as [Hgt|r Hle Hr|e Hle He Hh|e Hlt He Hh];
    [done|done|done|].
  apply IH; bound.
Qed.

(** More fuel does not change a result that was reached. *)
Lemma generate_loop_more_fuel self rm k fuel : ∀ rc le s,
  (generate_loop fuel self rm rc le s).1 ≠ OutOfFuel →
  generate_loop (fuel + k) self rm rc le s = generate_loop fuel self rm rc le s.
Proof.
  induction fuel as [|fuel IH]; intros rc le s Hne; [done|].
  change (S fuel + k) with (S (fuel + k)).
  rewrite !generate_loop_S in *.
  destruct (loop_body self rm rc le s) as [[x|[rc' le']] s']; [done|].
  by apply IH.
Qed.


(** *** Bounded retries *)

(** C1. Whatever the conversation and whatever the transport answers,
    [generate_response] returns or raises (the fuel of the model does not
    run out, and any fuel of at least [MAX_RETRIES + 1] passes gives the
    same result); the requests handed to the transport during the call are
    at most [MAX_RETRIES + 1], which is three. *)
Theorem C1_at_most_three_attempts self rm s :
  MAX_RETRIES + 1 = 3
  ∧ (∃ out s' reqs,
        generate_response self rm s = Some (out, s')
        ∧ sent s' = sent s ++ reqs
        ∧ length reqs ≤ MAX_RETRIES + 1)
  ∧ (∀ k, generate_response_fuel (MAX_RETRIES + 1 + k) self rm s
          = generate_response self rm s).
Proof.
  split; [reflexivity|]. split.
  - destruct (generate_loop_sent self rm (S (S MAX_RETRIES)) 0 None s)
      as (reqs & Hsent & Hlen).
    pose proof (generate_loop_terminates self rm (S (S MAX_RETRIES)) 0 None s) as Hterm.
    pose proof (generate_loop_no_fallthrough self rm (S (S MAX_RETRIES)) 0 None s) as Hfall.
    unfold OpenAICompatibleClient.generate_response,
           OpenAICompatibleClient.generate_response_fuel.
    destruct (generate_loop (S (S MAX_RETRIES)) self rm 0 None s) as [[r|e|le|] s'];
      simpl in *.
    + exists (Ret r), s', reqs. repeat split; [done|bound].
    + exists (Raise e), s', reqs. repeat split; [done|bound].
    + exfalso. apply Hfall. bound.
    + exfalso. apply Hterm; [bound|bound|done].
  - intros k.
    unfold OpenAICompatibleClient.generate_response,
           OpenAICompatibleClient.generate_response_fuel.
    assert (Hne : (generate_loop (MAX_RETRIES + 1) self rm 0 None s).1 ≠ OutOfFuel)
      by (apply generate_loop_terminates; bound).
    rewrite (generate_loop_more_fuel self rm k (MAX_RETRIES + 1) 0 None s Hne).
    replace (S (S MAX_RETRIES)) with (MAX_RETRIES + 1 + 1) by bound.
    by rewrite (generate_loop_more_fuel self rm 1 (MAX_RETRIES + 1) 0 None s Hne).
Qed.

(** C8. The statement after the loop is never reached: started as
    [generate_response] starts it, the loop is left by a [return] or a
    [raise] of its body, never because its condition is false. *)
Theorem C8_fallback_unreachable fuel self rm s :
  match (generate_loop fuel self rm 0 None s).1 with
  | Fallthrough _ => False
  | _ => True
  end.
Proof. apply generate_loop_no_fallthrough. bound. Qed.

(** Every pass entered with [retry_count <= MAX_RETRIES] returns, raises,
    or goes round again with [retry_count <= MAX_RETRIES] still. *)
Lemma loop_body_keeps_bound self rm rc le s :
  rc ≤ MAX_RETRIES →
  match (loop_body self rm rc le s).1 with
  | inl (Returned _) | inl (Raised _) => True
  | inl _ => False
  | inr (rc', _) => rc' ≤ MAX_RETRIES
  end.
Proof.
  intros Hrc.
  destruct (loop_body_pass self rm rc le s) as [Hgt|r Hle Hr|e Hle He Hh|e Hlt He Hh];
    simpl; [bound|done|done|bound].
Qed.

(** *** Errors that are not retried *)

Lemma handler_of_non_retryable e :
  exc_class e ∈ [RateLimitError; RefusalError; APITimeoutError;
                 APIConnectionError; InternalServerError] →
  handler_of e ≠ ApplicationLevel.
Proof.
  rewrite !elem_of_cons, elem_of_nil. unfold handler_of.
  intros [->|[->|[->|[->|[->|[]]]]]]; discriminate.
Qed.

(** The two [except] clauses that re-raise.  If an attempt raises an
    exception of a class they name (the [RateLimitError] and [RefusalError]
    of [graphiti_core.llm_client.errors], the three transport errors of
    [openai]), the loop is left at once with that very exception: the state
    is the one the attempt left (one request handed to the transport,
    nothing appended to the conversation), whatever the retry count; in
    particular [generate_response] raises it when the first attempt does. *)
Theorem listed_errors_propagate self rm rc le s e fuel :
  rc ≤ MAX_RETRIES →
  (_generate_response self rm s).1 = Raise e →
  exc_class e ∈ [RateLimitError; RefusalError; APITimeoutError;
                 APIConnectionError; InternalServerError] →
  generate_loop (S fuel) self rm rc le s
    = (Raised e, (_generate_response self rm s).2)
  ∧ generate_response self rm s = Some (Raise e, (_generate_response self rm s).2)
  ∧ messages (_generate_response self rm s).2 = messages s
  ∧ length (sent (_generate_response self rm s).2) = length (sent s) + 1.
Proof.
  intros Hrc He Hcls. apply handler_of_non_retryable in Hcls.
  assert (Hloop : ∀ fuel rc le, rc ≤ MAX_RETRIES →
            generate_loop (S fuel) self rm rc le s
            = (Raised e, (_generate_response self rm s).2)).
  { clear fuel rc le Hrc. intros fuel rc le Hrc. rewrite generate_loop_S.
    destruct (loop_body_pass self rm rc le s)
      as [Hgt|r Hle Hr|e' Hle He' Hh|e' Hlt He' Hh]; [bound|congruence| |].
    - congruence.
    - exfalso. apply Hcls. congruence. }
  split; [by apply Hloop|]. split; [|split].
  - unfold OpenAICompatibleClient.generate_response,
           OpenAICompatibleClient.generate_response_fuel.
    rewrite Hloop by bound. done.
  - apply gen_messages.
  - apply gen_sent_length.
Qed.


(** *** The store across attempts *)

Lemma iter_clean_message k m :
  Nat.iter k clean_message m
  = MkMessage (role m) (Nat.iter k clean_input (content m)).
Proof.
  induction k as [|k IH]; simpl; [by destruct m|].
  by rewrite IH.
Qed.

(** An object is cleaned once for each of its occurrences in the list. *)
Lemma foldl_alter_lookup (ms : list loc) : ∀ (h : list Message) l m,
  h !! l = Some m →
  foldl (λ h l, alter clean_message l h) h ms !! l
  = Some (Nat.iter (count_occ Nat.eq_dec ms l) clean_message m).
Proof.
  induction ms as [|a ms IH]; intros h l m Hl; [done|].
  cbn [foldl count_occ]. destruct (Nat.eq_dec a l) as [->|Hne].
  - rewrite (IH _ l (clean_message m)).
    + by rewrite Nat.iter_succ_r.
    + by rewrite list_lookup_alter_eq, Hl.
  - apply IH. by rewrite list_lookup_alter_ne.
Qed.

Lemma gen_lookup self rm s l m :
  heap s !! l = Some m →
  heap (_generate_response self rm s).2 !! l
  = Some (Nat.iter (count_occ Nat.eq_dec (messages s) l) clean_message m).
Proof. intros Hl. rewrite gen_heap. by apply foldl_alter_lookup. Qed.

Lemma gen_heap_length self rm s :
  length (heap (_generate_response self rm s).2) = length (heap s).
Proof. rewrite gen_heap. apply foldl_alter_length. Qed.

Lemma application_error_at_shift self rm s s1 k :
  length (sent s1) = length (sent s) + 1 →
  application_error_at self rm s (S k) → application_error_at self rm s1 k.
Proof.
  intros Hlen (e & He & Hh). exists e. split; [|done].
  rewrite Hlen. by replace (length (sent s) + 1 + k) with (length (sent s) + S k) by lia.
Qed.

Lemma after_passes_S n self rm rc le s :
  after_passes (S n) self rm rc le s =
  match loop_body self rm rc le s with
  | (inl _, _) => None
  | (inr (rc', le'), s') => after_passes n self rm rc' le' s'
  end.
Proof. reflexivity. Qed.

(** When the attempt fails with an application-level error and retries are
    left, the pass appends the corrective message and goes round again. *)
Lemma loop_body_retry self rm rc le s e :
  rc < MAX_RETRIES →
  normalize self rm (transport (length (sent s))) = Raise e →
  handler_of e = ApplicationLevel →
  loop_body self rm rc le s
  = (inr (rc + 1, Some e),
     append_message (MkMessage "user" (error_context e))
                    (_generate_response self rm s).2).
Proof.
  intros Hrc He Hh. rewrite <- gen_outcome in He.
  destruct (loop_body_pass self rm rc le s)
    as [Hgt|r Hle Hr|e' Hle He' Hh'|e' Hlt He' Hh']; [lia|congruence| |].
  - assert (e' = e) as -> by congruence. destruct Hh' as [Hh'|Hh']; [done|lia].
  - by assert (e' = e) as -> by congruence.
Qed.

(** [n] application-level errors in a row, with [retry_count + n] within
    the bound, take the loop through [n] passes; each pass appends one fresh
    object with role [user] and leaves the earlier references in place. *)
Lemma after_passes_application_errors self rm n : ∀ rc le s,
  rc + n ≤ MAX_RETRIES →
  (∀ k, k < n → application_error_at self rm s k) →
  ∃ le' s',
    after_passes n self rm rc le s = Some ((rc + n, le'), s')
    ∧ messages s' = messages s ++ seq (length (heap s)) n
    ∧ length (heap s') = length (heap s) + n
    ∧ length (sent s') = length (sent s) + n
    ∧ (∀ l m, heap s !! l = Some m →
         ∃ k, heap s' !! l = Some (Nat.iter k clean_message m))
    ∧ (∀ i, i < n →
         ∃ c, heap s' !! (length (heap s) + i) = Some (MkMessage "user" c)).
Proof.
  induction n as [|n IH]; intros rc le s Hrc Herr.
  { exists le, s. simpl. rewrite app_nil_r, !Nat.add_0_r.
    repeat split; try done.
    - intros l m Hl. by exists 0.
    - intros i Hi. lia. }
  destruct (Herr 0 ltac:(lia)) as (e & He & Hh). rewrite Nat.add_0_r in He.
  rewrite after_passes_S, (loop_body_retry self rm rc le s e) by (done || lia).
  set (s1 := append_message (MkMessage "user" (error_context e))
                            (_generate_response self rm s).2).
  assert (Hheap1 : heap s1 = heap (_generate_response self rm s).2
                             ++ [MkMessage "user" (error_context e)]) by done.
  assert (Hlen1 : length (heap s1) = length (heap s) + 1)
    by (by rewrite Hheap1, length_app, gen_heap_length).
  assert (Hmsgs1 : messages s1 = messages s ++ [length (heap s)])
    by (unfold s1; simpl; by rewrite gen_messages, gen_heap_length).
  assert (Hsent1 : length (sent s1) = length (sent s) + 1)
    by apply gen_sent_length.
  destruct (IH (rc + 1) (Some e) s1) as (le' & s' & Hpass & Hmsgs & Hheap & Hsent & Hold & Hnew).
  { lia. }
  { intros k Hk. apply (application_error_at_shift self rm s); [done|].
    apply Herr. lia. }
  exists le', s'. split; [|split; [|split; [|split; [|split]]]].
  - rewrite Hpass. do 3 f_equal. lia.
  - rewrite Hmsgs, Hmsgs1, Hlen1, <- app_assoc. simpl.
    by rewrite Nat.add_1_r.
  - lia.
  - lia.
  - intros l m Hl.
    destruct (Hold l (Nat.iter (count_occ Nat.eq_dec (messages s) l) clean_message m))
      as (k & Hk).
    { rewrite Hheap1, lookup_app_l.
      - by apply gen_lookup.
      - rewrite gen_heap_length. by eapply lookup_lt_Some. }
    eexists. by rewrite Hk, <- Nat.iter_add.
  - intros [|i] Hi.
    + destruct (Hold (length (heap s)) (MkMessage "user" (error_context e)))
        as (k & Hk).
      { rewrite Hheap1, <- (gen_heap_length self rm s). apply list_lookup_middle. done. }
      rewrite Nat.add_0_r, Hk, iter_clean_message. by eexists.
    + destruct (Hnew i ltac:(lia)) as (c & Hc). exists c.
      rewrite <- Hc. f_equal. lia.
Qed.

(** Passes that went round again are passes of the loop. *)
Lemma generate_loop_after_passes self rm n : ∀ fuel rc le s rc' le' s',
  after_passes n self rm rc le s = Some ((rc', le'), s') →
  generate_loop (n + fuel) self rm rc le s = generate_loop fuel self rm rc' le' s'.
Proof.
  induction n as [|n IH]; intros fuel rc le s rc' le' s' Hpass.
  { simpl in Hpass. by simplify_eq. }
  rewrite after_passes_S in Hpass. change (S n + fuel) with (S (n + fuel)).
  rewrite generate_loop_S.
  destruct (loop_body self rm rc le s) as [[x|[rc1 le1]] s1]; [done|].
  by apply IH.
Qed.


(** *** Corrective messages *)

(** C3. After [n <= MAX_RETRIES] application-level errors in a row the
    loop stands before its [(n+1)]-th attempt with a conversation of the
    initial length plus [n]: the initial references, in their order,
    followed by [n] fresh objects whose role is [user]; [n] requests have
    been handed to the transport, and the objects that were there keep
    their role. *)
Theorem C3_one_corrective_message_per_retry self rm s n :
  n ≤ MAX_RETRIES →
  (∀ k, k < n → application_error_at self rm s k) →
  ∃ le s_n,
    after_passes n self rm 0 None s = Some ((n, le), s_n)
    ∧ (∀ fuel, generate_loop (n + fuel) self rm 0 None s
               = generate_loop fuel self rm n le s_n)
    ∧ length (messages s_n) = length (messages s) + n
    ∧ messages s_n = messages s ++ seq (length (heap s)) n
    ∧ length (sent s_n) = length (sent s) + n
    ∧ (∀ i, i < n →
         ∃ c, heap s_n !! (length (heap s) + i) = Some (MkMessage "user" c))
    ∧ (∀ l m, heap s !! l = Some m →
         ∃ m', heap s_n !! l = Some m' ∧ role m' = role m).
Proof.
  intros Hn Herr.
  destruct (after_passes_application_errors self rm n 0 None s)
    as (le & s_n & Hpass & Hmsgs & Hheap & Hsent & Hold & Hnew); [lia|done|].
  exists le, s_n. split; [done|]. split; [|split; [|split; [|split; [|split]]]].
  - intros fuel. by apply generate_loop_after_passes.
  - by rewrite Hmsgs, length_app, length_seq.
  - done.
  - done.
  - done.
  - intros l m Hl. destruct (Hold l m Hl) as (k & Hk).
    eexists. split; [done|]. by rewrite iter_clean_message.
Qed.

(** C5. When every one of the [MAX_RETRIES + 1] attempts fails with an
    application-level error, [generate_response] raises the exception of
    the last attempt, the same object with its class and text, after
    [MAX_RETRIES + 1] requests. *)
Theorem C5_last_error_raised self rm s :
  (∀ k, k ≤ MAX_RETRIES → application_error_at self rm s k) →
  ∃ e s',
    generate_response self rm s = Some (Raise e, s')
    ∧ normalize self rm (transport (length (sent s) + MAX_RETRIES)) = Raise e
    ∧ handler_of e = ApplicationLevel
    ∧ length (sent s') = length (sent s) + MAX_RETRIES + 1.
Proof.
  intros Herr.
  destruct (after_passes_application_errors self rm MAX_RETRIES 0 None s)
    as (le & s_n & Hpass & _ & _ & Hsent & _ & _); [lia| |].
  { intros k Hk. apply Herr. lia. }
  destruct (Herr MAX_RETRIES ltac:(lia)) as (e & He & Hh).
  exists e, (_generate_response self rm s_n).2.
  assert (Hout : (_generate_response self rm s_n).1 = Raise e)
    by (by rewrite gen_outcome, Hsent).
  split; [|split; [done|split; [done|]]].
  - unfold OpenAICompatibleClient.generate_response,
           OpenAICompatibleClient.generate_response_fuel.
    replace (S (S MAX_RETRIES)) with (MAX_RETRIES + 2) by lia.
    rewrite (generate_loop_after_passes self rm _ _ _ _ _ _ _ _ Hpass).
    rewrite generate_loop_S.
    destruct (loop_body_pass self rm (0 + MAX_RETRIES) le s_n)
      as [Hgt|r Hle Hr|e' Hle He' Hh'|e' Hlt He' Hh']; [lia|congruence| |lia].
    by assert (e' = e) as -> by congruence.
  - rewrite gen_sent_length. lia.
Qed.

(** *** What a call does to the caller's objects *)

(** The loop hands [n] requests to the transport; it only appends fresh
    references to the conversation; and an object that was in the store is
    cleaned [n] times for each of its occurrences in the conversation. *)
Lemma generate_loop_store self rm fuel : ∀ rc le s,
  ∃ n new,
    (0 < fuel → rc ≤ MAX_RETRIES → 1 ≤ n)
    ∧ n ≤ MAX_RETRIES + 1 - rc
    ∧ length (sent (generate_loop fuel self rm rc le s).2) = length (sent s) + n
    ∧ messages (generate_loop fuel self rm rc le s).2 = messages s ++ new
    ∧ Forall (λ l, length (heap s) ≤ l) new
    ∧ ∀ l m, heap s !! l = Some m →
        heap (generate_loop fuel self rm rc le s).2 !! l
        = Some (Nat.iter (n * count_occ Nat.eq_dec (messages s) l) clean_message m).
Proof.
  induction fuel as [|fuel IH]; intros rc le s.
  { exists 0, []. simpl. rewrite app_nil_r. repeat split; (done || bound). }
  rewrite generate_loop_S.
  destruct (loop_body_pass self rm rc le s) as [Hgt|r Hle Hr|e Hle He Hh|e Hlt He Hh].
  - exists 0, []. simpl. rewrite app_nil_r. repeat split; (done || bound).
  - exists 1, []. rewrite app_nil_r.
    split; [done|]. split; [bound|]. split; [apply gen_sent_length|].
    split; [apply gen_messages|]. split; [done|].
    intros l m Hl. rewrite Nat.mul_1_l. by apply gen_lookup.
  - exists 1, []. rewrite app_nil_r.
    split; [done|]. split; [bound|]. split; [apply gen_sent_length|].
    split; [apply gen_messages|]. split; [done|].
    intros l m Hl. rewrite Nat.mul_1_l. by apply gen_lookup.
  - set (s1 := append_message (MkMessage "user" (error_context e))
                              (_generate_response self rm s).2).
    assert (Hheap1 : heap s1 = heap (_generate_response self rm s).2
                               ++ [MkMessage "user" (error_context e)]) by done.
    assert (Hlen1 : length (heap s1) = length (heap s) + 1)
      by (by rewrite Hheap1, length_app, gen_heap_length).
    assert (Hmsgs1 : messages s1 = messages s ++ [length (heap s)])
      by (unfold s1; simpl; by rewrite gen_messages, gen_heap_length).
    assert (Hsent1 : length (sent s1) = length (sent s) + 1)
      by apply gen_sent_length.
    destruct (IH (rc + 1) (Some e) s1) as (n & new & Hpos & Hn & Hsent & Hmsgs & Hnew & Hold).
    fold s1. exists (S n), (length (heap s) :: new).
    split; [bound|]. split; [bound|]. split; [lia|]. split; [|split].
    + rewrite Hmsgs, Hmsgs1, <- app_assoc. done.
    + constructor; [done|]. eapply Forall_impl; [exact Hnew|].
      intros x Hx. change (length (heap s1) ≤ x) in Hx. lia.
    + intros l m Hl. pose proof (lookup_lt_Some _ _ _ Hl) as Hlt'.
      rewrite (Hold l (Nat.iter (count_occ Nat.eq_dec (messages s) l) clean_message m)).
      * rewrite Hmsgs1, count_occ_app. simpl.
        destruct (Nat.eq_dec (length (heap s)) l) as [Heq|_]; [lia|].
        rewrite <- Nat.iter_add, Nat.add_0_r.
        by rewrite (Nat.add_comm (n * _)).
      * rewrite Hheap1, lookup_app_l by (by rewrite gen_heap_length).
        by apply gen_lookup.
Qed.

(** C6, as the code has it.  A call of [generate_response] that makes
    [n] attempts ([1 <= n <= MAX_RETRIES + 1]) keeps the caller's
    references in place and only appends fresh ones, but it overwrites the
    content of the caller's objects: every object of the store keeps its
    role, and its content is [clean_input] applied [n] times for each
    occurrence of the object in the conversation (so an object outside
    the conversation is left as it was). *)
Theorem C6_messages_cleaned_in_place self rm s out s' :
  generate_response self rm s = Some (out, s') →
  ∃ n new,
    1 ≤ n ≤ MAX_RETRIES + 1
    ∧ length (sent s') = length (sent s) + n
    ∧ messages s' = messages s ++ new
    ∧ Forall (λ l, length (heap s) ≤ l) new
    ∧ ∀ l m, heap s !! l = Some m →
        heap s' !! l
        = Some (MkMessage (role m)
                  (Nat.iter (n * count_occ Nat.eq_dec (messages s) l)
                            clean_input (content m))).
Proof.
  unfold OpenAICompatibleClient.generate_response,
         OpenAICompatibleClient.generate_response_fuel.
  intros Hgen.
  destruct (generate_loop_store self rm (S (S MAX_RETRIES)) 0 None s)
    as (n & new & Hpos & Hn & Hsent & Hmsgs & Hnew & Hold).
  assert (Hs' : (generate_loop (S (S MAX_RETRIES)) self rm 0 None s).2 = s').
  { destruct (generate_loop (S (S MAX_RETRIES)) self rm 0 None s) as [[r|e|le|] s2];
      simpl; congruence. }
  rewrite Hs' in *. exists n, new.
  split; [split; [apply Hpos; lia|lia]|]. split; [done|]. split; [done|].
  split; [done|]. intros l m Hl. by rewrite (Hold l m Hl), iter_clean_message.
Qed.


(** *** The request *)

Lemma omap_alter_roles l (h : list Message) (ms : list loc) :
  role <$> omap (λ l', alter clean_message l h !! l') ms
  = role <$> omap (λ l', h !! l') ms.
Proof.
  induction ms as [|a ms IH]; [done|]. csimpl.
  destruct (decide (l = a)) as [->|Hne].
  - rewrite list_lookup_alter_eq. destruct (h !! a); csimpl; by rewrite IH.
  - rewrite list_lookup_alter_ne by done. destruct (h !! a); csimpl; by rewrite IH.
Qed.

Lemma omap_alter_notin l (h : list Message) (ms : list loc) :
  l ∉ ms →
  omap (λ l', alter clean_message l h !! l') ms = omap (λ l', h !! l') ms.
Proof.
  induction ms as [|a ms IH]; [done|]. rewrite not_elem_of_cons. intros [Hne Hnotin].
  csimpl. rewrite list_lookup_alter_ne by done. by rewrite IH.
Qed.

(** The roles of the request are the [user] and [system] roles of the
    conversation, in order. *)
Lemma build_messages_roles ms : ∀ h acc,
  param_role <$> (build_messages ms h acc).2
  = (param_role <$> acc)
    ++ List.filter user_or_system (role <$> omap (λ l, h !! l) ms).
Proof.
  induction ms as [|a ms IH]; intros h acc; [by rewrite app_nil_r|].
  cbn [OpenAICompatibleClient.build_messages]. csimpl.
  rewrite list_lookup_alter_eq. destruct (h !! a) as [m|]; csimpl;
    [|by rewrite IH, omap_alter_roles].
  destruct (String.eqb (role m) "user") eqn:Hu.
  { replace (user_or_system (role m)) with true
      by (unfold user_or_system; by rewrite Hu).
    apply String.eqb_eq in Hu. rewrite IH, fmap_app, omap_alter_roles. csimpl.
    by rewrite <- app_assoc, Hu. }
  destruct (String.eqb (role m) "system") eqn:Hs.
  { replace (user_or_system (role m)) with true
      by (unfold user_or_system; by rewrite Hu, Hs).
    apply String.eqb_eq in Hs. rewrite IH, fmap_app, omap_alter_roles. csimpl.
    by rewrite <- app_assoc, Hs. }
  replace (user_or_system (role m)) with false
    by (unfold user_or_system; by rewrite Hu, Hs).
  by rewrite IH, omap_alter_roles.
Qed.

(** When no object occurs twice, the entries of the request are the
    [user] and [system] objects with their content cleaned once. *)
Lemma build_messages_params ms : ∀ h acc,
  NoDup ms →
  (build_messages ms h acc).2
  = acc ++ ((λ m, MkParam (role m) (clean_input (content m)))
              <$> List.filter (λ m, user_or_system (role m))
                              (omap (λ l, h !! l) ms)).
Proof.
  induction ms as [|a ms IH]; intros h acc Hnd; [by rewrite app_nil_r|].
  apply NoDup_cons in Hnd as [Hnotin Hnd].
  cbn [OpenAICompatibleClient.build_messages]. csimpl.
  rewrite list_lookup_alter_eq. destruct (h !! a) as [m|]; csimpl;
    [|by rewrite IH, omap_alter_notin].
  destruct (String.eqb (role m) "user") eqn:Hu.
  { replace (user_or_system (role m)) with true
      by (unfold user_or_system; by rewrite Hu).
    apply String.eqb_eq in Hu. rewrite IH, omap_alter_notin by done. csimpl.
    by rewrite <- app_assoc, Hu. }
  destruct (String.eqb (role m) "system") eqn:Hs.
  { replace (user_or_system (role m)) with true
      by (unfold user_or_system; by rewrite Hu, Hs).
    apply String.eqb_eq in Hs. rewrite IH, omap_alter_notin by done. csimpl.
    by rewrite <- app_assoc, Hs. }
  replace (user_or_system (role m)) with false
    by (unfold user_or_system; by rewrite Hu, Hs).
  by rewrite IH, omap_alter_notin.
Qed.

Lemma model_or_default_unset self :
  model self = None ∨ model self = Some "" →
  model_or_default self = DEFAULT_MODEL.
Proof. unfold model_or_default. by intros [->| ->]. Qed.

Lemma model_or_default_set self m :
  model self = Some m → m ≠ "" → model_or_default self = m.
Proof. unfold model_or_default. intros -> Hm. by destruct m. Qed.

(** C7. Each attempt hands one request to the transport.  Its roles are
    the roles of the conversation that are [user] or [system], in the
    order of the conversation (every other role is left out); when no
    object occurs twice in the conversation its entries are those objects
    with their cleaned content; its model is the configured one, or
    [DEFAULT_MODEL] when none is configured; temperature and token limit
    are the client's. *)
Theorem C7_request_builder self rm s :
  ∃ req,
    sent (_generate_response self rm s).2 = sent s ++ [req]
    ∧ param_role <$> p_messages req
      = List.filter user_or_system (role <$> conversation s)
    ∧ (NoDup (messages s) →
       p_messages req
       = (λ m, MkParam (role m) (clean_input (content m)))
           <$> List.filter (λ m, user_or_system (role m)) (conversation s))
    ∧ (model self = None ∨ model self = Some "" → p_model req = DEFAULT_MODEL)
    ∧ (∀ m, model self = Some m → m ≠ "" → p_model req = m)
    ∧ p_temperature req = temperature self
    ∧ p_max_tokens req = max_tokens self.
Proof.
  rewrite gen_unfold. simpl. eexists. split; [done|]. simpl.
  split; [by rewrite build_messages_roles|].
  split; [intros Hnd; by rewrite build_messages_params|].
  split; [apply model_or_default_unset|].
  split; [apply model_or_default_set|done].
Qed.

(** *** The response *)


(** A value the loop returns is the value of one of the attempts. *)
Lemma generate_loop_returned self rm fuel : ∀ rc le s r s',
  generate_loop fuel self rm rc le s = (Returned r, s') →
  ∃ k, normalize self rm (transport k) = Ret r.
Proof.
  induction fuel as [|fuel IH]; intros rc le s r s'; [done|].
  rewrite generate_loop_S.
  destruct (loop_body_pass self rm rc le s) as [Hgt|r' Hle Hr|e Hle He Hh|e Hlt He Hh];
    try done.
  - intros [= <- _]. rewrite gen_outcome in Hr. by eexists.
  - apply IH.
Qed.

Lemma normalize_manual_decode self rm t r :
  is_deepseek self = true → is_Some rm →
  normalize self rm t = Ret r →
  (∃ v, r = Parsed v) ∨ (∃ text, r = ContentOnly text).
Proof.
  intros Hd Hrm. unfold OpenAICompatibleClient.normalize.
  rewrite Hd, bool_decide_eq_true_2 by done. simpl.
  destruct t as [[[|m rest]]|e]; simpl; try done.
  destruct (cm_content m) as [text|]; [|done].
  destruct (json_loads text) as [v|]; intros [= <-]; eauto.
Qed.

(** C10. With no model configured ([None] or the empty string) the model
    name in effect is ['deepseek'], which contains the marker; so with a
    response model every value that [_generate_response] or
    [generate_response] returns is the decoded value or
    [{'content': text}], never the dump of the message. *)
Theorem C10_unset_model_decodes_manually self name s :
  model self = None ∨ model self = Some "" →
  model_or_default self = "deepseek"
  ∧ is_deepseek self = true
  ∧ (∀ r, (_generate_response self (Some name) s).1 = Ret r →
          (∃ v, r = Parsed v) ∨ (∃ text, r = ContentOnly text))
  ∧ (∀ r s', generate_response self (Some name) s = Some (Ret r, s') →
          (∃ v, r = Parsed v) ∨ (∃ text, r = ContentOnly text)).
Proof.
  intros Hunset.
  assert (Hm : model_or_default self = "deepseek")
    by (by apply model_or_default_unset).
  assert (Hd : is_deepseek self = true) by (unfold is_deepseek; by rewrite Hm).
  split; [done|]. split; [done|]. split.
  - intros r. rewrite gen_outcome. by apply normalize_manual_decode.
  - intros r s'.
    unfold OpenAICompatibleClient.generate_response,
           OpenAICompatibleClient.generate_response_fuel.
    destruct (generate_loop (S (S MAX_RETRIES)) self (Some name) 0 None s)
      as [[r'|e|le|] s2] eqn:Hloop; try done.
    intros [= <- _]. apply generate_loop_returned in Hloop as [k Hk].
    by eapply normalize_manual_decode.
Qed.

(** *** The attempt that decides *)

Lemma application_error_at_unshift self rm s s1 k :
  length (sent s1) = length (sent s) + 1 →
  application_error_at self rm s1 k → application_error_at self rm s (S k).
Proof.
  intros Hlen (e & He & Hh). exists e. split; [|done].
  rewrite Hlen in He. by replace (length (sent s) + S k) with (length (sent s) + 1 + k) by lia.
Qed.

Lemma not_application_level e :
  handler_of e ≠ ApplicationLevel ∨ handler_of e = ApplicationLevel.
Proof. destruct (handler_of e); auto. Qed.

(** With enough fuel the loop makes [k + 1] attempts, where attempt [k] is
    the first whose outcome ends the loop; that outcome is the result. *)
Lemma generate_loop_decides self rm fuel : ∀ rc le s,
  rc ≤ MAX_RETRIES → MAX_RETRIES + 1 - rc ≤ fuel →
  ∃ k,
    rc + k ≤ MAX_RETRIES
    ∧ (∀ i, i < k → application_error_at self rm s i)
    ∧ decisive (rc + k) (normalize self rm (transport (length (sent s) + k)))
    ∧ (generate_loop fuel self rm rc le s).1
      = exit_of (normalize self rm (transport (length (sent s) + k)))
    ∧ length (sent (generate_loop fuel self rm rc le s).2) = length (sent s) + k + 1
    ∧ messages (generate_loop fuel self rm rc le s).2
      = messages s ++ seq (length (heap s)) k
    ∧ length (heap (generate_loop fuel self rm rc le s).2) = length (heap s) + k.
Proof.
  induction fuel as [|fuel IH]; intros rc le s Hrc Hfuel; [bound|].
  rewrite generate_loop_S.
  destruct (loop_body_pass self rm rc le s) as [Hgt|r Hle Hr|e Hle He Hh|e Hlt He Hh].
  - bound.
  - rewrite gen_outcome in Hr. exists 0. rewrite !Nat.add_0_r, Hr. simpl.
    rewrite app_nil_r, gen_messages, gen_heap_length, gen_sent_length.
    split; [done|]. split; [intros i Hi; lia|]. split; [|done].
    right. by intros e.
  - rewrite gen_outcome in He. exists 0. rewrite !Nat.add_0_r, He. simpl.
    rewrite app_nil_r, gen_messages, gen_heap_length, gen_sent_length.
    split; [done|]. split; [intros i Hi; lia|]. split; [|done].
    destruct Hh as [Hh|Hh]; [right|by left]. by intros e' [= <-].
  - set (s1 := append_message (MkMessage "user" (error_context e))
                              (_generate_response self rm s).2).
    assert (Hlen1 : length (heap s1) = length (heap s) + 1)
      by (unfold s1; simpl; by rewrite length_app, gen_heap_length).
    assert (Hmsgs1 : messages s1 = messages s ++ [length (heap s)])
      by (unfold s1; simpl; by rewrite gen_messages, gen_heap_length).
    assert (Hsent1 : length (sent s1) = length (sent s) + 1)
      by apply gen_sent_length.
    destruct (IH (rc + 1) (Some e) s1) as (k & Hk & Herr & Hdec & Hexit & Hsent & Hmsgs & Hheap);
      [bound|bound|].
    rewrite Hsent1 in Hdec, Hexit.
    replace (length (sent s) + 1 + k) with (length (sent s) + S k) in Hdec, Hexit by lia.
    replace (rc + 1 + k) with (rc + S k) in Hdec by lia.
    exists (S k). split; [lia|]. split; [|split; [done|split; [done|split; [lia|split]]]].
    + intros [|i] Hi.
      * exists e. rewrite Nat.add_0_r, <- gen_outcome. done.
      * apply (application_error_at_unshift self rm s s1); [done|]. apply Herr. lia.
    + rewrite Hmsgs, Hmsgs1, Hlen1, <- app_assoc. simpl. by rewrite Nat.add_1_r.
    + lia.
Qed.

(** The same for [generate_response]. *)
Lemma generate_response_decides self rm s :
  ∃ k s',
    k ≤ MAX_RETRIES
    ∧ (∀ i, i < k → application_error_at self rm s i)
    ∧ decisive k (normalize self rm (transport (length (sent s) + k)))
    ∧ generate_response self rm s
      = Some (normalize self rm (transport (length (sent s) + k)), s')
    ∧ length (sent s') = length (sent s) + k + 1
    ∧ messages s' = messages s ++ seq (length (heap s)) k
    ∧ length (heap s') = length (heap s) + k.
Proof.
  destruct (generate_loop_decides self rm (S (S MAX_RETRIES)) 0 None s)
    as (k & Hk & Herr & Hdec & Hexit & Hsent & Hmsgs & Hheap); [lia|lia|].
  exists k, (generate_loop (S (S MAX_RETRIES)) self rm 0 None s).2.
  split; [lia|]. split; [done|]. split; [done|]. split; [|done].
  unfold OpenAICompatibleClient.generate_response,
         OpenAICompatibleClient.generate_response_fuel.
  destruct (generate_loop (S (S MAX_RETRIES)) self rm 0 None s) as [x s'].
  simpl in Hexit. rewrite Hexit.
  by destruct (normalize self rm (transport (length (sent s) + k))).
Qed.

(** The attempt that decides is the first one that can: two candidates
    coincide. *)
Lemma decisive_unique self rm s k1 k2 :
  k1 ≤ MAX_RETRIES → k2 ≤ MAX_RETRIES →
  (∀ i, i < k1 → application_error_at self rm s i) →
  (∀ i, i < k2 → application_error_at self rm s i) →
  decisive k1 (normalize self rm (transport (length (sent s) + k1))) →
  decisive k2 (normalize self rm (transport (length (sent s) + k2))) →
  k1 = k2.
Proof.
  intros Hk1 Hk2 Herr1 Herr2 Hdec1 Hdec2.
  destruct (Nat.lt_trichotomy k1 k2) as [Hlt|[Heq|Hgt]]; [|done|].
  - destruct (Herr2 k1 Hlt) as (e & He & Hh).
    destruct Hdec1 as [->|Hdec1]; [lia|]. by destruct (Hdec1 e He).
  - destruct (Herr1 k2 Hgt) as (e & He & Hh).
    destruct Hdec2 as [->|Hdec2]; [lia|]. by destruct (Hdec2 e He).
Qed.

(** X1. The result of [generate_response] is the outcome of one attempt:
    there is [k <= MAX_RETRIES] such that the attempts before the [k]-th
    failed with application-level errors, the outcome of the [k]-th ends the
    loop, and that outcome, value or exception, is what the call gives; the
    call made [k + 1] requests and appended [k] fresh references. *)
Theorem X1_result_is_the_deciding_attempt self rm s :
  ∃ k s',
    k ≤ MAX_RETRIES
    ∧ (∀ i, i < k → application_error_at self rm s i)
    ∧ decisive k (normalize self rm (transport (length (sent s) + k)))
    ∧ generate_response self rm s
      = Some (normalize self rm (transport (length (sent s) + k)), s')
    ∧ length (sent s') = length (sent s) + k + 1
    ∧ messages s' = messages s ++ seq (length (heap s)) k.
Proof.
  destruct (generate_response_decides self rm s)
    as (k & s' & Hk & Herr & Hdec & Hgen & Hsent & Hmsgs & _).
  by exists k, s'.
Qed.

(** X2. If the first [k <= MAX_RETRIES] attempts fail with application-level
    errors and the next one returns a value, [generate_response] returns
    that value after [k + 1] requests, with [k] corrective messages appended
    to the conversation. *)
Theorem X2_success_after_retries self rm s k r :
  k ≤ MAX_RETRIES →
  (∀ i, i < k → application_error_at self rm s i) →
  normalize self rm (transport (length (sent s) + k)) = Ret r →
  ∃ s',
    generate_response self rm s = Some (Ret r, s')
    ∧ length (sent s') = length (sent s) + k + 1
    ∧ messages s' = messages s ++ seq (length (heap s)) k.
Proof.
  intros Hk Herr Hr.
  destruct (generate_response_decides self rm s)
    as (k' & s' & Hk' & Herr' & Hdec' & Hgen & Hsent & Hmsgs & _).
  assert (k' = k) as ->.
  { apply (decisive_unique self rm s); try done. right. intros e. by rewrite Hr. }
  exists s'. by rewrite <- Hr.
Qed.

(** X3. An application-level error leaves [generate_response] only when the
    retries are used up: if the call raises an exception that reaches
    [except Exception], it made [MAX_RETRIES + 1] requests and every earlier
    attempt failed with an application-level error too. *)
Theorem X3_application_error_only_after_all_retries self rm s e s' :
  generate_response self rm s = Some (Raise e, s') →
  handler_of e = ApplicationLevel →
  length (sent s') = length (sent s) + MAX_RETRIES + 1
  ∧ (∀ i, i ≤ MAX_RETRIES → application_error_at self rm s i)
  ∧ normalize self rm (transport (length (sent s) + MAX_RETRIES)) = Raise e.
Proof.
  intros Hgen Hh.
  destruct (generate_response_decides self rm s)
    as (k & s2 & Hk & Herr & Hdec & Hgen2 & Hsent & _).
  rewrite Hgen in Hgen2. injection Hgen2 as He <-.
  assert (k = MAX_RETRIES) as ->.
  { destruct Hdec as [->|Hdec]; [done|]. by destruct (Hdec e). }
  split; [done|]. split; [|done].
  intros i Hi. destruct (decide (i = MAX_RETRIES)) as [->|Hne].
  - by exists e.
  - apply Herr. lia.
Qed.

(** X4. An exception that no [except] clause of the loop retries (the
    rate-limit, refusal and transport classes, and anything outside
    [Exception], a cancellation for one) is raised by the attempt at which it
    occurs, also after retries: no further request is made and no corrective
    message is appended for it. *)
Theorem X4_no_retry_after_permanent_failure self rm s k e :
  k ≤ MAX_RETRIES →
  (∀ i, i < k → application_error_at self rm s i) →
  normalize self rm (transport (length (sent s) + k)) = Raise e →
  handler_of e ≠ ApplicationLevel →
  ∃ s',
    generate_response self rm s = Some (Raise e, s')
    ∧ length (sent s') = length (sent s) + k + 1
    ∧ length (messages s') = length (messages s) + k.
Proof.
  intros Hk Herr He Hh.
  destruct (generate_response_decides self rm s)
    as (k' & s' & Hk' & Herr' & Hdec' & Hgen & Hsent & Hmsgs & _).
  assert (k' = k) as ->.
  { apply (decisive_unique self rm s); try done. right. intros e'.
    rewrite He. by intros [= <-]. }
  exists s'. rewrite <- He. split; [done|]. split; [done|].
  by rewrite Hmsgs, length_app, length_seq.
Qed.

(** *** Replies the normaliser cannot use *)

(** X5. A reply without choices makes the attempt fail with [IndexError],
    which reaches [except Exception]: when every reply is without choices,
    [generate_response] makes [MAX_RETRIES + 1] requests, appends
    [MAX_RETRIES] corrective messages and raises the [IndexError]. *)
Theorem X5_replies_without_choices self rm s :
  (∀ i, i ≤ MAX_RETRIES →
        transport (length (sent s) + i) = Completed (MkCompletion [])) →
  ∃ s',
    generate_response self rm s
    = Some (Raise (MkExc IndexError "list index out of range"), s')
    ∧ length (sent s') = length (sent s) + MAX_RETRIES + 1
    ∧ length (messages s') = length (messages s) + MAX_RETRIES.
Proof.
  intros Hempty.
  assert (Hnorm : ∀ i, i ≤ MAX_RETRIES →
            normalize self rm (transport (length (sent s) + i))
            = Raise (MkExc IndexError "list index out of range")).
  { intros i Hi. by rewrite Hempty. }
  destruct (generate_response_decides self rm s)
    as (k & s' & Hk & Herr & Hdec & Hgen & Hsent & Hmsgs & _).
  assert (k = MAX_RETRIES) as ->.
  { apply (decisive_unique self rm s k MAX_RETRIES); try done; [|by left].
    intros i Hi. eexists. split; [apply Hnorm; lia|done]. }
  exists s'. rewrite Hnorm in Hgen by done. split; [done|]. split; [done|].
  by rewrite Hmsgs, length_app, length_seq.
Qed.

(** X6. On the manual-decode path a reply whose content is [None] is not
    wrapped as [{'content': ...}]: [json.loads] raises [TypeError], which is
    not the [JSONDecodeError] the code catches, and the attempt fails with
    it.  When every reply is like that, [generate_response] raises the
    [TypeError] after [MAX_RETRIES + 1] requests. *)
Theorem X6_replies_without_content self rm s :
  is_deepseek self = true → is_Some rm →
  (∀ i, i ≤ MAX_RETRIES →
        ∃ m rest, transport (length (sent s) + i) = Completed (MkCompletion (m :: rest))
                  ∧ cm_content m = None) →
  ∃ s',
    generate_response self rm s
    = Some (Raise (MkExc TypeError
                     "the JSON object must be str, bytes or bytearray, not NoneType"), s')
    ∧ length (sent s') = length (sent s) + MAX_RETRIES + 1.
Proof.
  intros Hd Hrm Hnone.
  assert (Hnorm : ∀ i, i ≤ MAX_RETRIES →
            normalize self rm (transport (length (sent s) + i))
            = Raise (MkExc TypeError
                       "the JSON object must be str, bytes or bytearray, not NoneType")).
  { intros i Hi. destruct (Hnone i Hi) as (m & rest & -> & Hm).
    unfold OpenAICompatibleClient.normalize. simpl.
    by rewrite Hd, bool_decide_eq_true_2, Hm. }
  destruct (generate_response_decides self rm s)
    as (k & s' & Hk & Herr & Hdec & Hgen & Hsent & _).
  assert (k = MAX_RETRIES) as ->.
  { apply (decisive_unique self rm s k MAX_RETRIES); try done; [|by left].
    intros i Hi. eexists. split; [apply Hnorm; lia|done]. }
  exists s'. by rewrite Hnorm in Hgen.
Qed.

(** *** The sanitiser and the caller's objects *)

Lemma iter_idempotent {A} (f : A → A) n x :
  (∀ y, f (f y) = f y) → Nat.iter (S n) f x = f x.
Proof.
  intros Hf. induction n as [|n IH]; [done|].
  rewrite Nat.iter_succ, IH. apply Hf.
Qed.

(** X7. When the sanitiser is idempotent the number of attempts does not
    show in the caller's objects: after [generate_response] every object of
    the conversation has its role and the cleaned form of its content, and
    every other object of the store is as it was. *)
Theorem X7_idempotent_sanitiser self rm s out s' :
  (∀ x, clean_input (clean_input x) = clean_input x) →
  generate_response self rm s = Some (out, s') →
  ∀ l m, heap s !! l = Some m →
    (l ∈ messages s →
       heap s' !! l = Some (MkMessage (role m) (clean_input (content m))))
    ∧ (l ∉ messages s → heap s' !! l = Some m).
Proof.
  unfold OpenAICompatibleClient.generate_response,
         OpenAICompatibleClient.generate_response_fuel.
  intros Hidem Hgen l m Hl.
  destruct (generate_loop_store self rm (S (S MAX_RETRIES)) 0 None s)
    as (n & new & Hpos & _ & _ & _ & _ & Hold).
  assert (Hs' : (generate_loop (S (S MAX_RETRIES)) self rm 0 None s).2 = s').
  { destruct (generate_loop (S (S MAX_RETRIES)) self rm 0 None s) as [[r|e|le|] s2];
      simpl; congruence. }
  rewrite Hs' in Hold. rewrite (Hold l m Hl), iter_clean_message.
  assert (1 ≤ n) as Hn by (apply Hpos; lia).
  split; intros Hin.
  - apply list_elem_of_In, (count_occ_In Nat.eq_dec) in Hin.
    destruct (n * count_occ Nat.eq_dec (messages s) l) as [|j] eqn:Hj; [nia|].
    by rewrite iter_idempotent.
  - rewrite list_elem_of_In, (count_occ_not_In Nat.eq_dec) in Hin.
    rewrite Hin, Nat.mul_0_r. by destruct m.
Qed.

(** *** The requests of one call *)

Lemma generate_loop_requests self rm fuel : ∀ rc le s,
  ∃ reqs,
    sent (generate_loop fuel self rm rc le s).2 = sent s ++ reqs
    ∧ Forall (λ req, p_model req = model_or_default self
                     ∧ p_temperature req = temperature self
                     ∧ p_max_tokens req = max_tokens self) reqs.
Proof.
  induction fuel as [|fuel IH]; intros rc le s.
  { exists []. simpl. by rewrite app_nil_r. }
  rewrite generate_loop_S.
  destruct (loop_body_pass self rm rc le s) as [Hgt|r Hle Hr|e Hle He Hh|e Hlt He Hh].
  - exists []. simpl. by rewrite app_nil_r.
  - rewrite gen_unfold. simpl. eexists [_]. split; [done|]. by repeat constructor.
  - rewrite gen_unfold. simpl. eexists [_]. split; [done|]. by repeat constructor.
  - destruct (IH (rc + 1) (Some e)
                (append_message (MkMessage "user" (error_context e))
                                (_generate_response self rm s).2))
      as (reqs & Hsent & Hall).
    rewrite Hsent, gen_unfold. simpl. rewrite <- app_assoc.
    eexists. split; [done|]. simpl. by repeat constructor.
Qed.

(** X8. All the requests of one call of [generate_response] name the same
    model, [self.model or DEFAULT_MODEL], and carry the client's temperature
    and token limit: a retry changes the messages of the request and nothing
    else. *)
Theorem X8_requests_share_parameters self rm s out s' :
  generate_response self rm s = Some (out, s') →
  ∃ reqs,
    sent s' = sent s ++ reqs
    ∧ Forall (λ req, p_model req = model_or_default self
                     ∧ p_temperature req = temperature self
                     ∧ p_max_tokens req = max_tokens self) reqs.
Proof.
  unfold OpenAICompatibleClient.generate_response,
         OpenAICompatibleClient.generate_response_fuel.
  intros Hgen.
  destruct (generate_loop_requests self rm (S (S MAX_RETRIES)) 0 None s)
    as (reqs & Hsent & Hall).
  assert (Hs' : (generate_loop (S (S MAX_RETRIES)) self rm 0 None s).2 = s').
  { destruct (generate_loop (S (S MAX_RETRIES)) self rm 0 None s) as [[r|e|le|] s2];
      simpl; congruence. }
  rewrite Hs' in Hsent. by exists reqs.
Qed.

(** *** The rate limit of the transport *)

(** C2, where the code departs from it.  The rate-limit error that the
    transport raises is [openai.RateLimitError], a class of its own: it is
    not the [RateLimitError] of [graphiti_core.llm_client.errors] that the
    first [except] clause names, and nothing turns the one into the other.
    It reaches [except Exception]: when the transport is rate limited at
    every attempt, [generate_response] makes [MAX_RETRIES + 1] requests and
    appends [MAX_RETRIES] corrective messages before it raises the error,
    although the clause is there because "these errors should not trigger
    retries". *)
Theorem C2_transport_rate_limit_is_retried self rm s :
  (∀ i, i ≤ MAX_RETRIES →
        ∃ text, transport (length (sent s) + i)
                = Failed (MkExc (OtherException "RateLimitError") text)) →
  ∃ text s',
    generate_response self rm s
    = Some (Raise (MkExc (OtherException "RateLimitError") text), s')
    ∧ transport (length (sent s) + MAX_RETRIES)
      = Failed (MkExc (OtherException "RateLimitError") text)
    ∧ length (sent s') = length (sent s) + MAX_RETRIES + 1
    ∧ length (messages s') = length (messages s) + MAX_RETRIES.
Proof.
  intros Hlimited.
  destruct (generate_response_decides self rm s)
    as (k & s' & Hk & Herr & Hdec & Hgen & Hsent & Hmsgs & _).
  assert (k = MAX_RETRIES) as ->.
  { apply (decisive_unique self rm s k MAX_RETRIES); try done; [|by left].
    intros i Hi. destruct (Hlimited i ltac:(lia)) as (text & Ht).
    eexists. by rewrite Ht. }
  destruct (Hlimited MAX_RETRIES ltac:(lia)) as (text & Ht).
  exists text, s'. rewrite Ht in Hgen. split; [done|]. split; [done|]. split; [done|].
  by rewrite Hmsgs, length_app, length_seq.
Qed.

(** *** The request of a retry *)

Lemma build_messages_app ms1 : ∀ ms2 h acc,
  build_messages (ms1 ++ ms2) h acc
  = build_messages ms2 (build_messages ms1 h acc).1 (build_messages ms1 h acc).2.
Proof.
  induction ms1 as [|l ms1 IH]; intros ms2 h acc; [done|].
  cbn [app OpenAICompatibleClient.build_messages].
  destruct (alter clean_message l h !! l) as [m|]; [|apply IH].
  destruct (String.eqb (role m) "user"); [apply IH|].
  destruct (String.eqb (role m) "system"); apply IH.
Qed.

(** Objects behind the references of the list are out of reach of the loop. *)
Lemma build_messages_frame ms : ∀ h t acc,
  Forall (λ l, l < length h) ms →
  build_messages ms (h ++ t) acc
  = ((build_messages ms h acc).1 ++ t, (build_messages ms h acc).2).
Proof.
  induction ms as [|l ms IH]; intros h t acc Hwf; [done|].
  apply Forall_cons in Hwf as [Hl Hwf].
  cbn [OpenAICompatibleClient.build_messages].
  rewrite alter_app_l by done.
  rewrite lookup_app_l by (by rewrite length_alter).
  assert (Hwf' : Forall (λ l0, l0 < length (alter clean_message l h)) ms)
    by (by rewrite length_alter).
  destruct (alter clean_message l h !! l) as [m|]; [|by apply IH].
  destruct (String.eqb (role m) "user"); [by apply IH|].
  destruct (String.eqb (role m) "system"); by apply IH.
Qed.

Lemma foldl_alter_roles (ms : list loc) : ∀ (h : list Message) l,
  role <$> foldl (λ h l, alter clean_message l h) h ms !! l = role <$> h !! l.
Proof.
  induction ms as [|a ms IH]; intros h l; [done|]. cbn [foldl]. rewrite IH.
  destruct (decide (a = l)) as [->|Hne].
  - rewrite list_lookup_alter_eq. by destruct (h !! l).
  - by rewrite list_lookup_alter_ne.
Qed.

Lemma omap_roles_ext (h h' : list Message) (ms : list loc) :
  (∀ l, role <$> h' !! l = role <$> h !! l) →
  role <$> omap (λ l, h' !! l) ms = role <$> omap (λ l, h !! l) ms.
Proof.
  intros Hroles. induction ms as [|a ms IH]; [done|]. csimpl.
  specialize (Hroles a).
  destruct (h' !! a) as [m'|], (h !! a) as [m|]; simplify_eq/=; by rewrite ?IH, ?Hroles.
Qed.

(** A fresh [user] object at the end of the list gives the last entry of
    the request. *)
Lemma build_messages_snoc ms h msg acc :
  Forall (λ l, l < length h) ms →
  role msg = "user" →
  (build_messages (ms ++ [length h]) (h ++ [msg]) acc).2
  = (build_messages ms h acc).2 ++ [MkParam "user" (clean_input (content msg))].
Proof.
  intros Hwf Hrole.
  rewrite build_messages_app, build_messages_frame by done.
  cbn [fst snd OpenAICompatibleClient.build_messages].
  rewrite <- (build_messages_length ms h acc).
  set (h' := (build_messages ms h acc).1).
  replace (alter clean_message (length h') (h' ++ [msg]))
    with (h' ++ [clean_message msg]).
  - rewrite list_lookup_middle by done. simpl. by rewrite Hrole.
  - by rewrite <- (Nat.add_0_r (length h')), alter_app_r.
Qed.

(** X9. When an attempt on a well-formed conversation fails with an
    application-level error [e] and a retry is left, the pass goes round
    again and the request of the next attempt is the conversation once more
    (its [user] and [system] roles, in order) followed by one [user] entry:
    the corrective text built from the class and the message of [e], cleaned
    like every other content. *)
Theorem X9_retry_request_ends_with_correction self rm rc le s e :
  wf s →
  rc < MAX_RETRIES →
  normalize self rm (transport (length (sent s))) = Raise e →
  handler_of e = ApplicationLevel →
  ∃ s1 earlier,
    loop_body self rm rc le s = (inr (rc + 1, Some e), s1)
    ∧ sent (_generate_response self rm s1).2
      = sent s1 ++ [MkParams (model_or_default self)
                             (earlier ++ [MkParam "user" (clean_input (error_context e))])
                             (temperature self) (max_tokens self)]
    ∧ param_role <$> earlier = List.filter user_or_system (role <$> conversation s).
Proof.
  intros Hwf Hrc He Hh.
  set (h1 := heap (_generate_response self rm s).2).
  set (msg := MkMessage "user" (error_context e)).
  exists (append_message msg (_generate_response self rm s).2),
         (build_messages (messages s) h1 []).2.
  assert (Hlen : length h1 = length (heap s)) by apply gen_heap_length.
  split; [by apply loop_body_retry|]. split.
  - rewrite (gen_unfold self rm (append_message msg (_generate_response self rm s).2)).
    assert (Hm : messages (append_message msg (_generate_response self rm s).2)
                 = messages s ++ [length h1])
      by (simpl; by rewrite gen_messages).
    assert (Hhp : heap (append_message msg (_generate_response self rm s).2)
                  = h1 ++ [msg]) by done.
    rewrite Hm, Hhp, build_messages_snoc; [done| |done].
    by rewrite Hlen.
  - rewrite build_messages_roles. simpl. unfold conversation.
    f_equal. apply omap_roles_ext. intros l. unfold h1. rewrite gen_heap.
    apply foldl_alter_roles.
Qed.

(** *** Fresh objects *)

(** X10. The corrective messages are new objects: on a well-formed
    conversation [generate_response] leaves a well-formed conversation, and
    if no object occurred twice in the caller's list, none does afterwards;
    the appended references alias neither a message of the caller nor each
    other. *)
Theorem X10_corrective_messages_are_fresh self rm s out s' :
  wf s →
  generate_response self rm s = Some (out, s') →
  wf s' ∧ (NoDup (messages s) → NoDup (messages s')).
Proof.
  intros Hwf Hgen.
  destruct (generate_response_decides self rm s)
    as (k & s2 & _ & _ & _ & Hgen2 & _ & Hmsgs & Hheap).
  rewrite Hgen in Hgen2. injection Hgen2 as _ <-.
  unfold wf in *. rewrite Hmsgs, Hheap. split.
  - apply Forall_app. split.
    + eapply Forall_impl; [exact Hwf|]. intros l Hl. simpl in Hl. lia.
    + apply Forall_seq. intros j Hj. lia.
  - intros Hnd. apply NoDup_app. split; [done|]. split; [|apply NoDup_seq].
    intros l Hl Hin. apply elem_of_seq in Hin.
    rewrite Forall_forall in Hwf. specialize (Hwf l Hl). simpl in Hwf. lia.
Qed.

(** *** The marker *)

(** X11. For an ASCII model name the manual-decode family is recognised
    whatever the case of the letters: [is_deepseek] holds exactly when the
    model name in effect has a part that reads [deepseek] once lower-cased. *)
Theorem X11_marker_in_any_case self :
  PyStr.is_ascii (model_or_default self) = true →
  (is_deepseek self = true
   ↔ ∃ pre m post,
       model_or_default self = pre +:+ m +:+ post ∧ PyStr.lower m = "deepseek").
Proof.
  intros Hascii. unfold OpenAICompatibleClient.is_deepseek, PyStr.str_lower.
  rewrite Hascii, PyStrProperties.contains_spec. split.
  - intros (pre' & post' & Hlow).
    apply PyStrProperties.lower_split in Hlow as (pre & rest & Hname & Hpre & Hrest).
    apply PyStrProperties.lower_split in Hrest as (m & post & -> & Hm & Hpost).
    by exists pre, m, post.
  - intros (pre & m & post & -> & Hm).
    exists (PyStr.lower pre), (PyStr.lower post).
    by rewrite !PyStrProperties.lower_app, Hm.
Qed.

End WithEnvironment.

(** *** The definitions at work *)

Local Abbreviation run_generate tr :=
  (generate_response Scenario.lower_non_ascii Scenario.clean_input Scenario.JSON Scenario.json_loads tr).
Local Abbreviation run_attempt tr :=
  (_generate_response Scenario.lower_non_ascii Scenario.clean_input Scenario.JSON Scenario.json_loads tr).

(** Case does not matter for the marker, and an unrelated name has none. *)
Example is_deepseek_examples :
  is_deepseek Scenario.lower_non_ascii Scenario.client_deepseek = true
  ∧ is_deepseek Scenario.lower_non_ascii Scenario.client_gpt = false
  ∧ is_deepseek Scenario.lower_non_ascii Scenario.client_unset = true
  ∧ is_deepseek Scenario.lower_non_ascii Scenario.client_empty = true.
Proof. repeat split; reflexivity. Qed.

(** Two invalid replies, then a JSON document: the call returns the decoded
    value after three requests, and the conversation has two more entries. *)
Example flaky_run :
  ∃ s', run_generate Scenario.transport_flaky Scenario.client_deepseek
                     (Some "ExtractedEntities") Scenario.s0
        = Some (Ret (Parsed []), s')
        ∧ messages s' = [0; 1; 2; 3; 4]
        ∧ length (sent s') = 3
        ∧ heap s' !! 3 = Some (MkMessage "user"
            ("The previous response attempt was invalid. Error type: ValidationError. "
             +:+ "Error details: first. Please try again with a valid response, "
             +:+ "ensuring the output matches the expected format and constraints.")).
Proof. eexists. split; [vm_compute; reflexivity|]. repeat split. Qed.

(** A timeout on the second attempt is raised as it is: two requests, and
    the one corrective message of the first failure. *)
Example timeout_on_second_attempt :
  ∃ s', run_generate Scenario.transport_timeout_second Scenario.client_gpt None Scenario.s0
        = Some (Raise (MkExc APITimeoutError "Request timed out."), s')
        ∧ messages s' = [0; 1; 2; 3]
        ∧ length (sent s') = 2.
Proof. eexists. split; [vm_compute; reflexivity|]. split; reflexivity. Qed.

(** The [except] clauses go by class, not by name: an exception of another
    class that happens to be called [RateLimitError] reaches
    [except Exception]. *)
Example handler_of_examples :
  handler_of (MkExc RateLimitError "quota") = NoRetry
  ∧ handler_of (MkExc APITimeoutError "timeout") = TransportLevel
  ∧ handler_of (MkExc BadRequestError "bad request") = ApplicationLevel
  ∧ handler_of (MkExc (OtherException "RateLimitError") "quota") = ApplicationLevel
  ∧ handler_of (MkExc (NonException "CancelledError") "") = Uncaught.
Proof. repeat split; reflexivity. Qed.

(** The request of the first attempt on [s0]: the assistant message is left
    out, and the BEL is gone from the user message. *)
Example first_request :
  sent (run_attempt (Scenario.transport_ok "{}") Scenario.client_unset None Scenario.s0).2
  = [MkParams "deepseek"
              [MkParam "system" "Extract the facts."; MkParam "user" "Alice met Bob"]
              (temperature Scenario.client_unset) 8192].
Proof. vm_compute. reflexivity. Qed.

(** *** Instances *)

Lemma listed_errors_propagate_example :
  run_generate Scenario.transport_rate_limited Scenario.client_gpt None Scenario.s0
  = Some (Raise (MkExc RateLimitError "Rate limit exceeded. Please try again later."),
          (run_attempt Scenario.transport_rate_limited Scenario.client_gpt None
                       Scenario.s0).2)
  ∧ length (sent (run_attempt Scenario.transport_rate_limited Scenario.client_gpt None
                              Scenario.s0).2) = 1.
Proof.
  pose proof (listed_errors_propagate
                Scenario.lower_non_ascii Scenario.clean_input Scenario.JSON Scenario.json_loads
                Scenario.transport_rate_limited Scenario.client_gpt None 0 None
                Scenario.s0
                (MkExc RateLimitError "Rate limit exceeded. Please try again later.") 0)
    as H.
  destruct H as (_ & Hgen & _ & Hsent).
  - unfold MAX_RETRIES. lia.
  - reflexivity.
  - simpl. apply list_elem_of_here.
  - split; [exact Hgen|exact Hsent].
Defined.

Lemma C2_transport_rate_limit_is_retried_witness :
  ∃ text s',
    run_generate Scenario.transport_openai_rate_limited Scenario.client_gpt None
                 Scenario.s0
    = Some (Raise (MkExc (OtherException "RateLimitError") text), s')
    ∧ Scenario.transport_openai_rate_limited (length (sent Scenario.s0) + MAX_RETRIES)
      = Failed (MkExc (OtherException "RateLimitError") text)
    ∧ length (sent s') = 3
    ∧ length (messages s') = 5.
Proof.
  apply (C2_transport_rate_limit_is_retried
           Scenario.lower_non_ascii Scenario.clean_input Scenario.JSON Scenario.json_loads
           Scenario.transport_openai_rate_limited Scenario.client_gpt None Scenario.s0).
  intros i Hi. by eexists.
Defined.

Lemma C3_one_corrective_message_per_retry_witness :
  ∃ le s_n,
    after_passes Scenario.lower_non_ascii Scenario.clean_input Scenario.JSON Scenario.json_loads
                 Scenario.transport_invalid 2 Scenario.client_gpt None 0 None Scenario.s0
    = Some ((2, le), s_n)
    ∧ length (messages s_n) = length (messages Scenario.s0) + 2
    ∧ messages s_n = [0; 1; 2; 3; 4].
Proof.
  destruct (C3_one_corrective_message_per_retry
              Scenario.lower_non_ascii Scenario.clean_input Scenario.JSON Scenario.json_loads
              Scenario.transport_invalid Scenario.client_gpt None Scenario.s0 2)
    as (le & s_n & Hpass & _ & Hlen & Hmsgs & _).
  - unfold MAX_RETRIES. lia.
  - intros k Hk. exists (Scenario.validation_error k). split; reflexivity.
  - exists le, s_n. split; [exact Hpass|]. split; [exact Hlen|exact Hmsgs].
Defined.

Lemma C5_last_error_raised_witness :
  ∃ s', run_generate Scenario.transport_invalid Scenario.client_gpt None Scenario.s0
        = Some (Raise (MkExc (OtherException "ValidationError") "third"), s').
Proof.
  destruct (C5_last_error_raised
              Scenario.lower_non_ascii Scenario.clean_input Scenario.JSON Scenario.json_loads
              Scenario.transport_invalid Scenario.client_gpt None Scenario.s0)
    as (e & s' & Hgen & He & _).
  - intros k Hk. exists (Scenario.validation_error k). split; reflexivity.
  - exists s'. rewrite Hgen. vm_compute in He. injection He as <-. reflexivity.
Defined.

Lemma C6_messages_cleaned_in_place_witness :
  ∃ out s',
    run_generate (Scenario.transport_ok "{}") Scenario.client_gpt None Scenario.s0
    = Some (out, s')
    ∧ messages s' = messages Scenario.s0
    ∧ heap s' !! 1 = Some (MkMessage "user" "Alice met Bob").
Proof.
  eexists _, _. split; [vm_compute; reflexivity|].
  match goal with
  | |- messages ?s' = _ ∧ _ =>
      destruct (C6_messages_cleaned_in_place
                  Scenario.lower_non_ascii Scenario.clean_input Scenario.JSON Scenario.json_loads
                  (Scenario.transport_ok "{}") Scenario.client_gpt None Scenario.s0
                  (Ret (ModelDump (MkCompletionMessage "assistant" (Some "{}")
                                                       [("refusal", "null")])))
                  s')
        as (n & new & Hn & Hsent & Hmsgs & Hnew & Hold)
  end.
  - vm_compute. reflexivity.
  - split; reflexivity.
Defined.


Lemma C10_unset_model_decodes_manually_witness :
  model Scenario.client_unset = None
  ∧ is_deepseek Scenario.lower_non_ascii Scenario.client_unset = true
  ∧ (run_attempt (Scenario.transport_ok "not json") Scenario.client_unset
                 (Some "ExtractedEntities") Scenario.s0).1
    = Ret (ContentOnly "not json").
Proof.
  destruct (C10_unset_model_decodes_manually
              Scenario.lower_non_ascii Scenario.clean_input Scenario.JSON Scenario.json_loads
              (Scenario.transport_ok "not json") Scenario.client_unset
              "ExtractedEntities" Scenario.s0 (or_introl eq_refl))
    as (_ & Hd & _ & _).
  split; [reflexivity|]. split; [exact Hd|reflexivity].
Defined.

(** A name that is not ASCII goes through Python's own [lower]: with the
    Kelvin sign in place of the last letter the marker is found as soon as
    [str.lower] gives [deepseek] for that name. *)
Example marker_with_kelvin_sign (str_lower_non_ascii : string → string) :
  PyStr.is_ascii Scenario.kelvin_name = false
  ∧ (str_lower_non_ascii Scenario.kelvin_name = "deepseek" →
     is_deepseek str_lower_non_ascii
                 (MkClient (Some Scenario.kelvin_name) 0.5%float 8192) = true).
Proof.
  split; [reflexivity|]. intros Hlow.
  unfold is_deepseek, PyStr.str_lower, model_or_default. simpl. by rewrite Hlow.
Qed.

Lemma X11_marker_in_any_case_witness :
  is_deepseek Scenario.lower_non_ascii Scenario.client_deepseek = true.
Proof.
  apply (X11_marker_in_any_case Scenario.lower_non_ascii Scenario.client_deepseek).
  - reflexivity.
  - by exists "", "DeepSeek", "-V3".
Defined.

Lemma clean_input_idempotent x :
  Scenario.clean_input (Scenario.clean_input x) = Scenario.clean_input x.
Proof.
  induction x as [|c x IH]; [done|]. simpl.
  destruct (Scenario.is_control c) eqn:Hc; [done|]. simpl. by rewrite Hc, IH.
Qed.

Lemma wf_s0 : wf Scenario.s0.
Proof. unfold wf. simpl. repeat constructor. Qed.

Lemma X2_success_after_retries_witness :
  ∃ s', run_generate Scenario.transport_flaky Scenario.client_deepseek
                     (Some "ExtractedEntities") Scenario.s0
        = Some (Ret (Parsed []), s')
        ∧ length (sent s') = 3
        ∧ messages s' = [0; 1; 2; 3; 4].
Proof.
  apply (X2_success_after_retries
           Scenario.lower_non_ascii Scenario.clean_input Scenario.JSON Scenario.json_loads
           Scenario.transport_flaky Scenario.client_deepseek
           (Some "ExtractedEntities") Scenario.s0 2 (Parsed [])).
  - unfold MAX_RETRIES. lia.
  - intros i Hi. exists (Scenario.validation_error i).
    destruct i as [|[|i]]; [by split|by split|lia].
  - reflexivity.
Defined.

Lemma X3_application_error_only_after_all_retries_witness :
  ∃ s', run_generate Scenario.transport_invalid Scenario.client_gpt None Scenario.s0
        = Some (Raise (Scenario.validation_error 2), s')
        ∧ length (sent s') = 3.
Proof.
  eexists. split; [vm_compute; reflexivity|].
  match goal with
  | |- length (sent ?s') = _ =>
      destruct (X3_application_error_only_after_all_retries
                  Scenario.lower_non_ascii Scenario.clean_input Scenario.JSON Scenario.json_loads
                  Scenario.transport_invalid Scenario.client_gpt None Scenario.s0
                  (Scenario.validation_error 2) s') as (Hsent & _)
  end.
  - vm_compute. reflexivity.
  - reflexivity.
  - exact Hsent.
Defined.

Lemma X4_no_retry_after_permanent_failure_witness :
  ∃ s', run_generate Scenario.transport_cancelled_second Scenario.client_gpt None
                     Scenario.s0
        = Some (Raise (MkExc (NonException "CancelledError") ""), s')
        ∧ length (sent s') = 2
        ∧ length (messages s') = 4.
Proof.
  apply (X4_no_retry_after_permanent_failure
           Scenario.lower_non_ascii Scenario.clean_input Scenario.JSON Scenario.json_loads
           Scenario.transport_cancelled_second Scenario.client_gpt None Scenario.s0 1
           (MkExc (NonException "CancelledError") "")).
  - unfold MAX_RETRIES. lia.
  - intros i Hi. exists (Scenario.validation_error i).
    destruct i as [|i]; [by split|lia].
  - reflexivity.
  - discriminate.
Defined.

Lemma X5_replies_without_choices_witness :
  ∃ s', run_generate Scenario.transport_no_choices Scenario.client_gpt None Scenario.s0
        = Some (Raise (MkExc IndexError "list index out of range"), s')
        ∧ length (sent s') = 3
        ∧ length (messages s') = 5.
Proof.
  apply (X5_replies_without_choices
           Scenario.lower_non_ascii Scenario.clean_input Scenario.JSON Scenario.json_loads
           Scenario.transport_no_choices Scenario.client_gpt None Scenario.s0).
  intros i Hi. reflexivity.
Defined.

Lemma X6_replies_without_content_witness :
  ∃ s', run_generate Scenario.transport_no_content Scenario.client_deepseek
                     (Some "ExtractedEntities") Scenario.s0
        = Some (Raise (MkExc TypeError
                         "the JSON object must be str, bytes or bytearray, not NoneType"),
                s')
        ∧ length (sent s') = 3.
Proof.
  apply (X6_replies_without_content
           Scenario.lower_non_ascii Scenario.clean_input Scenario.JSON Scenario.json_loads
           Scenario.transport_no_content Scenario.client_deepseek
           (Some "ExtractedEntities") Scenario.s0).
  - reflexivity.
  - by eexists.
  - intros i Hi. by eexists _, _.
Defined.

Lemma X7_idempotent_sanitiser_witness :
  ∃ out s',
    run_generate Scenario.transport_flaky Scenario.client_deepseek
                 (Some "ExtractedEntities") Scenario.s0 = Some (out, s')
    ∧ heap s' !! 1 = Some (MkMessage "user" "Alice met Bob").
Proof.
  eexists _, _. split; [vm_compute; reflexivity|].
  match goal with
  | |- heap ?s' !! _ = _ =>
      apply (X7_idempotent_sanitiser
               Scenario.lower_non_ascii Scenario.clean_input Scenario.JSON Scenario.json_loads
               Scenario.transport_flaky Scenario.client_deepseek
               (Some "ExtractedEntities") Scenario.s0 (Ret (Parsed [])) s'
               clean_input_idempotent)
        with (m := MkMessage "user" ("Alice met Bob" +:+ Scenario.bell))
  end.
  - vm_compute. reflexivity.
  - reflexivity.
  - apply list_elem_of_further, list_elem_of_here.
Defined.

Lemma X8_requests_share_parameters_witness :
  ∃ out s' reqs,
    run_generate Scenario.transport_flaky Scenario.client_unset
                 (Some "ExtractedEntities") Scenario.s0 = Some (out, s')
    ∧ sent s' = sent Scenario.s0 ++ reqs
    ∧ Forall (λ req, p_model req = "deepseek"
                     ∧ p_temperature req = temperature Scenario.client_unset
                     ∧ p_max_tokens req = 8192%Z) reqs.
Proof.
  eexists _, _. 
  match goal with
  | |- ∃ reqs, ?g = Some (?out, ?s') ∧ _ =>
      assert (Hrun : g = Some (out, s')) by (vm_compute; reflexivity);
      destruct (X8_requests_share_parameters
                  Scenario.lower_non_ascii Scenario.clean_input Scenario.JSON Scenario.json_loads
                  Scenario.transport_flaky Scenario.client_unset
                  (Some "ExtractedEntities") Scenario.s0 out s' Hrun)
        as (reqs & Hsent & Hall)
  end.
  exists reqs. split; [exact Hrun|]. split; [exact Hsent|exact Hall].
Defined.

Lemma X9_retry_request_ends_with_correction_witness :
  ∃ s1 earlier,
    OpenAICompatibleClient.loop_body
      Scenario.lower_non_ascii Scenario.clean_input Scenario.JSON Scenario.json_loads Scenario.transport_invalid
      Scenario.client_gpt None 0 None Scenario.s0
    = (inr (1, Some (Scenario.validation_error 0)), s1)
    ∧ sent (run_attempt Scenario.transport_invalid Scenario.client_gpt None s1).2
      = sent s1 ++ [MkParams "gpt-4o"
                      (earlier ++ [MkParam "user"
                         (Scenario.clean_input
                            (error_context (Scenario.validation_error 0)))])
                      (temperature Scenario.client_gpt) 8192]
    ∧ param_role <$> earlier = ["system"; "user"].
Proof.
  apply (X9_retry_request_ends_with_correction
           Scenario.lower_non_ascii Scenario.clean_input Scenario.JSON Scenario.json_loads
           Scenario.transport_invalid Scenario.client_gpt None 0 None Scenario.s0
           (Scenario.validation_error 0)).
  - exact wf_s0.
  - unfold MAX_RETRIES. lia.
  - reflexivity.
  - reflexivity.
Defined.

Lemma X10_corrective_messages_are_fresh_witness :
  ∃ out s',
    run_generate Scenario.transport_invalid Scenario.client_gpt None Scenario.s0
    = Some (out, s')
    ∧ wf s' ∧ NoDup (messages s').
Proof.
  eexists _, _. 
  match goal with
  | |- ?g = Some (?out, ?s') ∧ _ =>
      assert (Hrun : g = Some (out, s')) by (vm_compute; reflexivity);
      destruct (X10_corrective_messages_are_fresh
                  Scenario.lower_non_ascii Scenario.clean_input Scenario.JSON Scenario.json_loads
                  Scenario.transport_invalid Scenario.client_gpt None Scenario.s0
                  out s' wf_s0 Hrun) as (Hwf & Hnd)
  end.
  split; [exact Hrun|]. split; [exact Hwf|]. apply Hnd.
  apply NoDup_ListNoDup. simpl. repeat constructor; simpl; intuition lia.
Defined.

(** *** Where the code differs *)

(** C6 as stated fails: after a successful call the caller's user message,
    object 1 of the conversation, no longer has the content it was given. *)
Lemma C6_counterexample :
  ∃ out s',
    run_generate (Scenario.transport_ok "{}") Scenario.client_gpt None Scenario.s0
    = Some (out, s')
    ∧ 1 ∈ messages Scenario.s0
    ∧ heap Scenario.s0 !! 1 = Some (MkMessage "user" ("Alice met Bob" +:+ Scenario.bell))
    ∧ heap s' !! 1 = Some (MkMessage "user" "Alice met Bob")
    ∧ heap s' !! 1 ≠ heap Scenario.s0 !! 1.
Proof.
  eexists _, _. split; [vm_compute; reflexivity|].
  split; [apply list_elem_of_further, list_elem_of_here|].
  split; [reflexivity|]. split; [reflexivity|]. vm_compute. discriminate.
Qed.

End ClientProperties.

(** * Properties of episode retrieval *)

Module GraphProperties.
Import GraphDataOperations.
Local Open Scope Z_scope.
Local Open Scope list_scope.

#[local] Instance created_at_desc_total : Total created_at_desc.
Proof. intros a b. unfold created_at_desc. lia. Qed.

#[local] Instance created_at_desc_trans : Transitive created_at_desc.
Proof. intros a b c. unfold created_at_desc. lia. Qed.





Lemma execute_query_answer graph reference_time n :
  query_answer graph reference_time n (execute_query graph reference_time n).
Proof.
  exists (merge_sort created_at_desc
            (filter (λ e, valid_at e ≤ reference_time) graph)).
  split; [apply merge_sort_Permutation|]. split; [|done].
  apply StronglySorted_merge_sort; apply _.
Qed.

Lemma NoDup_fmap_inj_on {A B} (f : A → B) (l : list A) x y :
  NoDup (f <$> l) → x ∈ l → y ∈ l → f x = f y → x = y.
Proof.
  induction l as [|a l IH]; [by intros _ ?%elem_of_nil|].
  rewrite fmap_cons, NoDup_cons, !elem_of_cons.
  intros [Hnotin Hnd] [->|Hx] [->|Hy] Hf; [done| | |by apply IH].
  - destruct Hnotin. rewrite Hf. by apply list_elem_of_fmap_2.
  - destruct Hnotin. rewrite <- Hf. by apply list_elem_of_fmap_2.
Qed.

(** When no two stored episodes were created at the same instant the query
    has one answer, the one [execute_query] computes: the order it gives to
    rows created together plays no part. *)
Lemma query_answer_unique graph reference_time n rows :
  NoDup (created_at <$> graph) →
  query_answer graph reference_time n rows →
  rows = execute_query graph reference_time n.
Proof.
  intros Hnd (sorted & Hperm & Hsorted & ->). unfold execute_query. f_equal.
  apply (StronglySorted_unique_strong created_at_desc); [|done| |].
  - intros x1 x2 Hx1 Hx2 H12 H21.
    rewrite Hperm in Hx1. rewrite merge_sort_Permutation in Hx2.
    apply list_elem_of_filter in Hx1 as [_ Hx1], Hx2 as [_ Hx2].
    apply (NoDup_fmap_inj_on created_at graph); try done.
    unfold created_at_desc in *. lia.
  - apply StronglySorted_merge_sort; apply _.
  - by rewrite merge_sort_Permutation.
Qed.

Section WithTimestamps.

Variable utc_round_trip : Z → Z.

Local Abbreviation node_of_record := (node_of_record utc_round_trip).
Local Abbreviation retrieve_episodes := (retrieve_episodes utc_round_trip).

Lemma valid_at_node_of_record record :
  valid_at (node_of_record record) = valid_at record.
Proof. reflexivity. Qed.

Lemma retrieve_episodes_unfold graph reference_time last_n :
  retrieve_episodes graph reference_time last_n
  = node_of_record <$> reverse (execute_query graph reference_time last_n).
Proof. unfold GraphDataOperations.retrieve_episodes. by rewrite fmap_reverse. Qed.


(** *** The window *)

(** X12. When no two stored episodes were created at the same instant, a
    larger window only adds older episodes in front: for [n <= m] the result
    for [n] is the end of the result for [m], whatever rows the two queries
    answer with. *)
Theorem X12_larger_window_extends_at_the_front graph reference_time n m rows_n rows_m :
  NoDup (created_at <$> graph) →
  (n ≤ m)%nat →
  query_answer graph reference_time n rows_n →
  query_answer graph reference_time m rows_m →
  retrieve_episodes graph reference_time n = reverse (node_of_record <$> rows_n)
  ∧ retrieve_episodes graph reference_time m = reverse (node_of_record <$> rows_m)
  ∧ retrieve_episodes graph reference_time n
      `suffix_of` retrieve_episodes graph reference_time m.
Proof.
  intros Hnd Hnm Hn Hm.
  apply (query_answer_unique _ _ _ _ Hnd) in Hn as ->.
  apply (query_answer_unique _ _ _ _ Hnd) in Hm as ->.
  split; [done|]. split; [done|].
  unfold GraphDataOperations.retrieve_episodes.
  apply suffix_prefix_reverse. rewrite !reverse_involutive. unfold execute_query.
  set (sorted := merge_sort created_at_desc
                   (filter (λ e, valid_at e ≤ reference_time) graph)).
  replace (take n sorted) with (take n (take m sorted))
    by (rewrite take_take; f_equal; lia).
  rewrite !fmap_take. apply prefix_take.
Qed.

(** X13. When no two stored episodes were created at the same instant, the
    result does not depend on the order in which the database holds them:
    two stores with the same episodes give the same list. *)
Theorem X13_result_independent_of_storage_order graph graph' reference_time last_n :
  NoDup (created_at <$> graph) →
  graph ≡ₚ graph' →
  retrieve_episodes graph reference_time last_n
  = retrieve_episodes graph' reference_time last_n.
Proof.
  intros Hnd Hperm. rewrite !retrieve_episodes_unfold.
  do 2 f_equal. symmetry. apply (query_answer_unique _ _ _ _ Hnd).
  destruct (execute_query_answer graph' reference_time last_n)
    as (sorted & Hsorted_perm & Hsorted & Hrows).
  exists sorted. by rewrite Hperm.
Qed.

(** X14. Nothing is returned exactly when the window is empty or no stored
    episode is valid at the reference time. *)
Theorem X14_empty_result graph reference_time last_n :
  retrieve_episodes graph reference_time last_n = []
  ↔ last_n = 0%nat ∨ Forall (λ e, reference_time < valid_at e) graph.
Proof.
  rewrite retrieve_episodes_unfold. unfold execute_query.
  set (valid := filter (λ e, valid_at e ≤ reference_time) graph).
  assert (Hvalid : valid = [] ↔ Forall (λ e, reference_time < valid_at e) graph).
  { unfold valid. rewrite Forall_forall. split.
    - intros Hnil e He. destruct (decide (valid_at e ≤ reference_time)) as [Hle|]; [|lia].
      by destruct (filter_nil_not_elem_of _ _ e Hnil Hle).
    - intros Hall. apply elem_of_nil_inv. intros e [He Hin]%list_elem_of_filter.
      specialize (Hall e Hin). lia. }
  rewrite <- Hvalid. split.
  - intros Hnil. apply (f_equal length) in Hnil.
    rewrite length_fmap, length_reverse, length_take, merge_sort_Permutation in Hnil.
    change (length []) with 0%nat in Hnil.
    destruct (decide (last_n = 0%nat)) as [?|Hpos]; [by left|right].
    apply nil_length_inv. lia.
  - intros [-> | ->]; [done|]. by destruct last_n.
Qed.

(** X15. When the window has room for all the episodes valid at the
    reference time, all of them are returned, each once, rebuilt from its
    record. *)
Theorem X15_window_with_room_returns_all_valid graph reference_time last_n :
  (length (filter (λ e, (valid_at e ≤ reference_time)%Z) graph) ≤ last_n)%nat →
  retrieve_episodes graph reference_time last_n
  ≡ₚ node_of_record <$> filter (λ e, valid_at e ≤ reference_time) graph.
Proof.
  intros Hroom. rewrite retrieve_episodes_unfold. unfold execute_query.
  rewrite reverse_Permutation, take_ge by (by rewrite merge_sort_Permutation).
  by rewrite merge_sort_Permutation.
Qed.

End WithTimestamps.


(** With room for one episode, the one created last is returned, although
    the other one is valid later. *)
Example latest_created_not_latest_valid :
  retrieve_episodes Scenario.utc_round_trip Scenario.graph 20 1 = [Scenario.ep_b].
Proof. reflexivity. Qed.


Lemma NoDup_created_at_graph : NoDup (created_at <$> Scenario.graph).
Proof. apply NoDup_ListNoDup. simpl. repeat constructor; simpl; intuition lia. Qed.

Lemma X12_larger_window_extends_at_the_front_witness :
  retrieve_episodes Scenario.utc_round_trip Scenario.graph 20 1
    `suffix_of` retrieve_episodes Scenario.utc_round_trip Scenario.graph 20 2.
Proof.
  apply (X12_larger_window_extends_at_the_front Scenario.utc_round_trip
           Scenario.graph 20 1 2
           (execute_query Scenario.graph 20 1) (execute_query Scenario.graph 20 2)).
  - exact NoDup_created_at_graph.
  - lia.
  - apply execute_query_answer.
  - apply execute_query_answer.
Defined.

Lemma X13_result_independent_of_storage_order_witness :
  retrieve_episodes Scenario.utc_round_trip [Scenario.ep_a; Scenario.ep_b] 20 2
  = retrieve_episodes Scenario.utc_round_trip [Scenario.ep_b; Scenario.ep_a] 20 2.
Proof.
  apply X13_result_independent_of_storage_order.
  - exact NoDup_created_at_graph.
  - apply Permutation_swap.
Defined.

Lemma X15_window_with_room_returns_all_valid_witness :
  retrieve_episodes Scenario.utc_round_trip Scenario.graph 7 3 ≡ₚ [Scenario.ep_b].
Proof.
  apply (X15_window_with_room_returns_all_valid Scenario.utc_round_trip
           Scenario.graph 7 3). simpl. lia.
Defined.

(** *** Index statements *)

(** [build_indices_and_constraints] issues seventeen statements, and each
    of them carries [IF NOT EXISTS]. *)
Example index_queries_facts :
  length index_queries = 17%nat
  ∧ Forall (λ q, PyStr.contains "IF NOT EXISTS" q = true) index_queries.
Proof. split; [reflexivity|]. repeat constructor. Qed.

End GraphProperties.

(** * Properties of the settings *)

Module ConfigProperties.
Import GraphServiceConfig.
Local Open Scope nat_scope.
Local Open Scope list_scope.

Section WithLoader.

Variable Env : Type.
Variable load : Env → Outcome Settings.

Local Abbreviation get_settings := (get_settings Env load).
Local Abbreviation get_settings_calls := (get_settings_calls Env load).

Lemma get_settings_calls_cons cache env envs :
  get_settings_calls cache (env :: envs)
  = ((get_settings cache env).1 :: (get_settings_calls (get_settings cache env).2 envs).1,
     (get_settings_calls (get_settings cache env).2 envs).2).
Proof.
  cbn [GraphServiceConfig.get_settings_calls].
  destruct (get_settings cache env) as [result cache']. cbn [fst snd].
  by destruct (get_settings_calls cache' envs).
Qed.

Lemma get_settings_calls_cached settings envs :
  (get_settings_calls (Some settings) envs).1 = replicate (length envs) (Ret settings).
Proof.
  induction envs as [|env envs IH]; [done|].
  rewrite get_settings_calls_cons. simpl. by rewrite IH.
Qed.

Lemma get_settings_returns cache env settings :
  (get_settings cache env).1 = Ret settings → (get_settings cache env).2 = Some settings.
Proof.
  unfold GraphServiceConfig.get_settings. destruct cache as [cached|]; simpl.
  - by intros [= ->].
  - destruct (load env); simpl; [by intros [= ->]|done].
Qed.

Lemma get_settings_empty_cache env :
  (get_settings None env).1 = load env.
Proof. unfold GraphServiceConfig.get_settings. by destruct (load env). Qed.

Lemma get_settings_raises cache env e :
  (get_settings cache env).1 = Raise e → (get_settings cache env).2 = None.
Proof.
  unfold GraphServiceConfig.get_settings. destruct cache as [cached|]; simpl; [done|].
  by destruct (load env).
Qed.

Lemma settings_stay_cached cache envs i j settings :
  (get_settings_calls cache envs).1 !! i = Some (Ret settings) →
  i ≤ j → j < length envs →
  (get_settings_calls cache envs).1 !! j = Some (Ret settings).
Proof.
  revert cache i j. induction envs as [|env envs IH]; intros cache i j Hi Hij Hj; [done|].
  rewrite get_settings_calls_cons in *. simpl in Hi, Hj |- *.
  destruct i as [|i].
  - injection Hi as Hi. destruct j as [|j]; simpl; [by rewrite Hi|].
    rewrite (get_settings_returns _ _ _ Hi), get_settings_calls_cached.
    apply lookup_replicate_2. lia.
  - destruct j as [|j]; [lia|]. simpl in *. apply (IH _ i); [done|lia|lia].
Qed.

Lemma failure_is_not_cached cache envs i e env :
  (get_settings_calls cache envs).1 !! i = Some (Raise e) →
  envs !! S i = Some env →
  (get_settings_calls cache envs).1 !! S i = Some (load env).
Proof.
  revert cache i. induction envs as [|env0 envs IH]; intros cache i Hi Henv; [done|].
  rewrite get_settings_calls_cons in *. simpl in Hi, Henv |- *.
  destruct i as [|i].
  - injection Hi as Hi. rewrite (get_settings_raises _ _ _ Hi).
    destruct envs as [|env1 envs]; [done|]. injection Henv as ->.
    rewrite get_settings_calls_cons. cbn [fst].
    change (Some (get_settings None env).1 = Some (load env)).
    by rewrite get_settings_empty_cache.
  - by apply IH.
Qed.

(** X18. The settings are read once: after a call of [get_settings] has
    returned settings, every later call returns the same settings, whatever
    the environment has become by then.  A call that raised caches nothing:
    the call after it reads the environment of its own time, and returns or
    raises what [Settings()] does there. *)
Theorem X18_settings_are_read_once cache envs i :
  (∀ settings j,
     (get_settings_calls cache envs).1 !! i = Some (Ret settings) →
     i ≤ j → j < length envs →
     (get_settings_calls cache envs).1 !! j = Some (Ret settings))
  ∧ (∀ e env,
       (get_settings_calls cache envs).1 !! i = Some (Raise e) →
       envs !! S i = Some env →
       (get_settings_calls cache envs).1 !! S i = Some (load env)).
Proof.
  split.
  - intros settings j. apply settings_stay_cached.
  - intros e env. apply failure_is_not_cached.
Qed.

End WithLoader.

Lemma X18_settings_are_read_once_witness :
  (GraphServiceConfig.get_settings_calls (option string)
     Scenario.load_settings
     None [None; Some "first"; Some "second"; None]).1 !! 3
  = Some (Ret (Scenario.settings_of_key "first"))
  ∧ (GraphServiceConfig.get_settings_calls (option string)
       Scenario.load_settings
       None [None; Some "first"; Some "second"; None]).1 !! 1
    = Some (Scenario.load_settings (Some "first")).
Proof.
  split.
  - apply (proj1 (X18_settings_are_read_once (option string) Scenario.load_settings
                    None [None; Some "first"; Some "second"; None] 1)
             (Scenario.settings_of_key "first") 3).
    + reflexivity.
    + lia.
    + simpl. lia.
  - apply (proj2 (X18_settings_are_read_once (option string) Scenario.load_settings
                    None [None; Some "first"; Some "second"; None] 0)
             (MkExc (OtherException "ValidationError") "Field required")
             (Some "first")).
    + reflexivity.
    + reflexivity.
Defined.

End ConfigProperties.
